(** * The lease-based index-job protocol of [MongoEntryRepository]

    A shallow embedding of
    [src/server/src/repositories/mongo/entry-repository.ts].

    The repository builds MongoDB filter and update documents and hands
    them to the collection.  The embedding therefore has two layers:

    - [Store]: documents, filter queries, update queries and the
      collection operations [updateOne], [updateMany], [bulkWrite] and
      [loadManyByFilter], with the semantics MongoDB documents for the
      operators the repository uses ([$exists], [$lte], equality, [$and],
      [$or]; [$set], [$unset], [$max], [$min]; upsert);
    - [Repo]: the repository itself, every definition written after the
      TypeScript function of the same name.

    The two effects of the source that are not store accesses,
    [currentTimestamp()] and [getRandomString(10)], are made explicit
    arguments of the functions that call them.

    Conventions.  Timestamps and lease durations are integers ([Z]), the
    millisecond counts [currentTimestamp()] yields; [count] is a natural
    number, the length of the array [createArray] builds.  Field names
    are top-level names, as all field names of the source are.  A
    collection is the list of its documents in natural order, and an
    [updateOne] writes the first document of that order that matches.
    Entries read back from the store are given as their documents, with
    [_id] for [id]. *)

From Stdlib Require Import ZArith.
From stdpp Require Import gmap strings list fin_maps.

Local Open Scope Z_scope.

(** ** Documents and their values *)

Module Store.

(** A BSON value.  The protocol only inspects numbers (timestamps) and
    strings (ids and job tokens); [VNull] and [VBool] stand for the
    descriptive payload. *)
Inductive Value : Type :=
| VNull
| VNum (n : Z)
| VStr (s : string)
| VBool (b : bool).

#[global] Instance Value_eq_dec : EqDecision Value.
Proof. solve_decision. Defined.

(** A document is a finite map from field names to values. *)
Abbreviation Document := (gmap string Value).

(** A collection lists its documents in natural order. *)
Abbreviation Collection := (list (gmap string Value)).

(** BSON comparison order across types: null, numbers, strings, booleans. *)
Definition type_rank (v : Value) : Z :=
  match v with
  | VNull => 0
  | VNum _ => 1
  | VStr _ => 2
  | VBool _ => 3
  end.

Definition value_compare (a b : Value) : comparison :=
  match a, b with
  | VNum x, VNum y => Z.compare x y
  | VStr x, VStr y => String.compare x y
  | VBool x, VBool y => Bool.compare x y
  | _, _ => Z.compare (type_rank a) (type_rank b)
  end.

Definition value_ltb (a b : Value) : bool :=
  match value_compare a b with Lt => true | _ => false end.

(** [$max] writes the given value only when it is greater than the stored
    one, [$min] only when it is smaller. *)
Definition value_max (given stored : Value) : Value :=
  if value_ltb stored given then given else stored.

Definition value_min (given stored : Value) : Value :=
  if value_ltb given stored then given else stored.

(** ** Filter queries *)

#[warnings="-register-all"]
Inductive FilterQuery : Type :=
| FExists (field : string) (present : bool)   (* { field: { $exists: b } } *)
| FEq (field : string) (v : Value)            (* { field: v } *)
| FLte (field : string) (bound : Z)           (* { field: { $lte: n } } *)
| FAnd (clauses : list FilterQuery)           (* { $and: [...] } *)
| FOr (clauses : list FilterQuery).           (* { $or: [...] } *)

(** A comparison operator only matches a field that is present and of
    the operand's type. *)
Fixpoint matches (q : FilterQuery) (d : Document) : bool :=
  match q with
  | FExists field present => Bool.eqb (bool_decide (is_Some (d !! field))) present
  | FEq field v => bool_decide (d !! field = Some v)
  | FLte field bound =>
      match d !! field with
      | Some (VNum n) => bool_decide (n ≤ bound)
      | _ => false
      end
  | FAnd clauses => forallb (λ c, matches c d) clauses
  | FOr clauses => existsb (λ c, matches c d) clauses
  end.

(** The document an upsert starts from: the equality conditions of the
    filter. *)
Fixpoint filter_seed (q : FilterQuery) : Document :=
  match q with
  | FEq field v => {[ field := v ]}
  | FAnd clauses => foldr (λ c acc, filter_seed c ∪ acc) ∅ clauses
  | _ => ∅
  end.

(** ** Update queries *)

Record UpdateQuery : Type := {
  upd_max : Document;     (* $max *)
  upd_min : Document;     (* $min *)
  upd_set : Document;     (* $set *)
  upd_unset : Document    (* $unset; only the keys matter *)
}.

(** MongoDB rejects an update in which two operators name the same
    field ("Updating the path 'f' would create a conflict at 'f'", error
    [ConflictingUpdateOperators]): no field may be the target of two of
    [$max], [$min], [$set] and [$unset]. *)
Definition conflict_free (u : UpdateQuery) : Prop :=
  dom (upd_max u) ## dom (upd_min u) ∧
  dom (upd_max u) ## dom (upd_set u) ∧
  dom (upd_max u) ## dom (upd_unset u) ∧
  dom (upd_min u) ## dom (upd_set u) ∧
  dom (upd_min u) ## dom (upd_unset u) ∧
  dom (upd_set u) ## dom (upd_unset u).

#[global] Instance conflict_free_dec u : Decision (conflict_free u).
Proof. unfold conflict_free. apply _. Defined.

Definition apply_max (given d : Document) : Document :=
  union_with (λ g s, Some (value_max g s)) given d.

Definition apply_min (given d : Document) : Document :=
  union_with (λ g s, Some (value_min g s)) given d.

(** The operators of a conflict-free update touch distinct fields, so
    the order in which they are applied here is immaterial. *)
Definition apply_update (u : UpdateQuery) (d : Document) : Document :=
  (upd_set u ∪ apply_min (upd_min u) (apply_max (upd_max u) d)) ∖ upd_unset u.

(** ** Collection operations *)

Inductive WriteError : Type :=
| ConflictingUpdateOperators.

Inductive Result (A : Type) : Type :=
| Ok (a : A)
| Err (e : WriteError).
Arguments Ok {A} a.
Arguments Err {A} e.

(** Update the first document, in natural order, that matches. *)
Fixpoint update_first (q : FilterQuery) (u : UpdateQuery) (c : Collection)
  : option Collection :=
  match c with
  | [] => None
  | d :: rest =>
      if matches q d then Some (apply_update u d :: rest)
      else (d ::.) <$> update_first q u rest
  end.

(** [collection.updateOne(filter, update, { upsert })].  An update that
    is rejected leaves the collection as it was. *)
Definition updateOne (q : FilterQuery) (u : UpdateQuery) (upsert : bool)
    (c : Collection) : Result Collection :=
  if decide (conflict_free u) then
    match update_first q u c with
    | Some c' => Ok c'
    | None =>
        if upsert then Ok (c ++ [apply_update u (filter_seed q)]) else Ok c
    end
  else Err ConflictingUpdateOperators.

(** [updateMany(filter, update)]: every matching document is updated. *)
Definition updateMany (q : FilterQuery) (u : UpdateQuery) (c : Collection)
  : Result Collection :=
  if decide (conflict_free u) then
    Ok (map (λ d, if matches q d then apply_update u d else d) c)
  else Err ConflictingUpdateOperators.

Record Operation : Type := {
  op_filter : FilterQuery;
  op_update : UpdateQuery;
  op_upsert : bool
}.

(** [collection.bulkWrite(operations, { ordered })].  The operations are
    [updateOne]s.  An ordered bulk stops at the first rejected operation;
    an unordered one carries on with the rest.  The call throws when the
    returned error list is not empty; the writes already made stay. *)
Fixpoint bulkWrite (ordered : bool) (ops : list Operation) (c : Collection)
  : Collection * list WriteError :=
  match ops with
  | [] => (c, [])
  | op :: rest =>
      match updateOne (op_filter op) (op_update op) (op_upsert op) c with
      | Ok c' => bulkWrite ordered rest c'
      | Err e =>
          if ordered then (c, [e])
          else let '(c', es) := bulkWrite ordered rest c in (c', e :: es)
      end
  end.

(** [loadManyByFilter(filter)]. *)
Definition loadManyByFilter (q : FilterQuery) (c : Collection) : Collection :=
  List.filter (matches q) c.

End Store.

(** ** The repository *)

Module Repo.
Import Store.

(** Modelled from the spec: the [Entry] type of [common/models], which the
    repository imports but which is not part of the sources at hand.  The
    data model of the specification gives it an id, the two watermarks,
    the optional marker [indexRequiredSince], the optional lease fields
    [indexJob] and [indexJobTimeout], and further descriptive fields.
    [descriptive] holds the latter; a key of [descriptive] that names one
    of the typed fields is ignored. *)
Record Entry : Type := {
  id : string;
  firstSeen : Z;
  lastSeen : Z;
  indexRequiredSince : option Z;
  indexJobTimeout : option Z;
  indexJob : option string;
  descriptive : gmap string Value
}.

(** An optional property of a JavaScript object: present with its value,
    or not a key at all. *)
Definition set_optional (field : string) (v : option Value) (d : Document)
  : Document :=
  match v with
  | Some x => <[field := x]> d
  | None => delete field d
  end.

(** [toMongoDocument(entity)] of [@tstdl/mongo]: the entity with its
    [id] property renamed to [_id]. *)
Definition toMongoDocument (entry : Entry) : Document :=
  <["_id" := VStr (id entry)]>
    (<["firstSeen" := VNum (firstSeen entry)]>
       (<["lastSeen" := VNum (lastSeen entry)]>
          (set_optional "indexRequiredSince" (VNum <$> indexRequiredSince entry)
             (set_optional "indexJobTimeout" (VNum <$> indexJobTimeout entry)
                (set_optional "indexJob" (VStr <$> indexJob entry)
                   (delete "id" (descriptive entry))))))).

(** [toUpdateOneOperation(entry)]; [now] is the value [currentTimestamp()]
    returns inside it. *)
Definition toUpdateOneOperation (now : Z) (entry : Entry) : Operation :=
  let filter := FEq "_id" (VStr (id entry)) in
  let document := toMongoDocument entry in
  let documentWithoutFirstAndLastSeen :=
    delete "firstSeen" (delete "lastSeen" document) in
  let update := {|
    upd_max := {[ "lastSeen" := VNum (lastSeen entry) ]};
    upd_min := {[ "firstSeen" := VNum (firstSeen entry) ]};
    upd_set :=
      <["indexRequiredSince" := VNum now]> documentWithoutFirstAndLastSeen;
    upd_unset :=
      <["indexJob" := VStr ""]> {[ "indexJobTimeout" := VStr "" ]}
  |} in
  {| op_filter := filter; op_update := update; op_upsert := true |}.

(** [save(entry)]. *)
Definition save (now : Z) (entry : Entry) (c : Collection)
  : Result Collection :=
  let op := toUpdateOneOperation now entry in
  updateOne (op_filter op) (op_update op) (op_upsert op) c.

(** [saveMany(entries)].  Each entry comes with the timestamp read while
    its operation was built.  The bulk is unordered: the store is free to
    apply the operations in any order, list order is the one taken here. *)
Definition saveMany (entries : list (Z * Entry)) (c : Collection)
  : Collection * list WriteError :=
  let operations := map (λ '(now, entry), toUpdateOneOperation now entry) entries in
  bulkWrite false operations c.

(** The filter of [getIndexJob]: the eligibility predicate of a claim
    made at [timestamp]. *)
Definition indexJobFilter (timestamp : Z) : FilterQuery :=
  FAnd [
    FExists "indexRequiredSince" true;
    FOr [
      FExists "indexJob" false;
      FLte "indexJobTimeout" timestamp
    ]
  ].

(** The update of [getIndexJob]. *)
Definition indexJobUpdate (indexJob : string) (timestamp timeout : Z)
  : UpdateQuery := {|
  upd_max := ∅;
  upd_min := ∅;
  upd_set :=
    <["indexJob" := VStr indexJob]>
      {[ "indexJobTimeout" := VNum (timestamp + timeout) ]};
  upd_unset := ∅
|}.

(** [getIndexJob(count, timeout)]; [indexJob] is the string
    [getRandomString(10)] returns and [timestamp] the value of
    [currentTimestamp()].  [createArray(count, ...)] makes [count] copies
    of the one operation. *)
Definition getIndexJob (indexJob : string) (timestamp : Z)
    (count : nat) (timeout : Z) (c : Collection)
  : Collection * Result (string * list Document) :=
  let filter := indexJobFilter timestamp in
  let update := indexJobUpdate indexJob timestamp timeout in
  let operations :=
    replicate count
      {| op_filter := filter; op_update := update; op_upsert := false |} in
  match bulkWrite true operations c with
  | (c', []) =>
      let entries := loadManyByFilter (FEq "indexJob" (VStr indexJob)) c' in
      (c', Ok (indexJob, entries))
  | (c', e :: _) => (c', Err e)
  end.

(** [setIndexJobFinished(jobId)]. *)
Definition setIndexJobFinished (jobId : string) (c : Collection)
  : Result Collection :=
  let filter := FEq "indexJob" (VStr jobId) in
  let update := {|
    upd_max := ∅;
    upd_min := ∅;
    upd_set := ∅;
    upd_unset :=
      <["indexRequiredSince" := VStr ""]>
        (<["indexJobTimeout" := VStr ""]> {[ "indexJob" := VStr "" ]})
  |} in
  updateMany filter update c.

End Repo.

(** ** The vocabulary of the protocol *)

Module Protocol.
Import Store Repo.

(** A document is eligible for a claim made at [timestamp] when the filter
    of [getIndexJob] matches it. *)
Definition eligible (timestamp : Z) (d : Document) : bool :=
  matches (indexJobFilter timestamp) d.

(** The document carries the job token [jobId]. *)
Definition tagged (jobId : string) (d : Document) : Prop :=
  d !! "indexJob" = Some (VStr jobId).

#[global] Instance tagged_dec jobId d : Decision (tagged jobId d).
Proof. unfold tagged. apply _. Defined.

(** No document of the collection carries [jobId]: the token is fresh. *)
Definition job_unused (jobId : string) (c : Collection) : Prop :=
  Forall (λ d, ¬ tagged jobId d) c.

#[global] Instance job_unused_dec jobId c : Decision (job_unused jobId c).
Proof. unfold job_unused. apply _. Defined.

(** The lease of [d] has run out at time [now]. *)
Definition lease_expired (now : Z) (d : Document) : Prop :=
  match d !! "indexJobTimeout" with
  | Some (VNum n) => n ≤ now
  | _ => False
  end.

#[global] Instance lease_expired_dec now d : Decision (lease_expired now d).
Proof.
  unfold lease_expired. destruct (d !! "indexJobTimeout") as [[]|]; apply _.
Defined.

(** The states of an entry, read off its marker and lease fields. *)
Inductive LeaseState : Type := Idle | Pending | Leased | Expired.

Definition lease_state (now : Z) (d : Document) : LeaseState :=
  match d !! "indexRequiredSince" with
  | None => Idle
  | Some _ =>
      match d !! "indexJob" with
      | None => Pending
      | Some _ =>
          match d !! "indexJobTimeout" with
          | Some (VNum n) => if bool_decide (n ≤ now) then Expired else Leased
          | _ => Leased
          end
      end
  end.

(** The write [getIndexJob] makes on a document it claims. *)
Definition claimed (jobId : string) (timestamp timeout : Z) (d : Document)
  : Document :=
  apply_update (indexJobUpdate jobId timestamp timeout) d.

(** The fields a claim or a release may modify. *)
Definition lease_fields : gset string :=
  {[ "indexJob"; "indexJobTimeout"; "indexRequiredSince" ]}.

(** [d'] is [d] up to the marker and lease fields. *)
Definition same_outside_lease (d d' : Document) : Prop :=
  ∀ field, field ∉ lease_fields → d' !! field = d !! field.

(** Documents are identified by [_id], which the store keeps unique. *)
Definition unique_ids (c : Collection) : Prop :=
  NoDup (map (λ d : Document, d !! "_id") c).

#[global] Instance unique_ids_dec c : Decision (unique_ids c).
Proof. unfold unique_ids. apply _. Defined.

(** *** Record invariants *)

Definition watermarks_ordered (d : Document) : Prop :=
  match d !! "firstSeen", d !! "lastSeen" with
  | Some (VNum f), Some (VNum l) => f ≤ l
  | _, _ => False
  end.

Definition lease_paired (d : Document) : Prop :=
  is_Some (d !! "indexJob") ↔ is_Some (d !! "indexJobTimeout").

Definition leased_only_if_required (d : Document) : Prop :=
  d !! "indexRequiredSince" = None → d !! "indexJob" = None.

Definition record_invariant (d : Document) : Prop :=
  watermarks_ordered d ∧ lease_paired d ∧ leased_only_if_required d.

#[global] Instance watermarks_ordered_dec d : Decision (watermarks_ordered d).
Proof.
  unfold watermarks_ordered.
  destruct (d !! "firstSeen") as [[]|], (d !! "lastSeen") as [[]|]; apply _.
Defined.

#[global] Instance record_invariant_dec d : Decision (record_invariant d).
Proof. unfold record_invariant, lease_paired, leased_only_if_required. apply _. Defined.

(** One [updateOne] of the bulk of [getIndexJob]. *)
Definition claim_step (jobId : string) (timestamp timeout : Z) (c : Collection)
  : Collection :=
  match update_first (indexJobFilter timestamp)
          (indexJobUpdate jobId timestamp timeout) c with
  | Some c' => c'
  | None => c
  end.

(** The collection after the first [k] operations of that bulk. *)
Definition after_claims (k : nat) (jobId : string) (timestamp timeout : Z)
    (c : Collection) : Collection :=
  (bulkWrite true
     (replicate k {| op_filter := indexJobFilter timestamp;
                     op_update := indexJobUpdate jobId timestamp timeout;
                     op_upsert := false |}) c).1.

(** The write [setIndexJobFinished] makes on a document it releases. *)
Definition released (d : Document) : Document :=
  delete "indexRequiredSince" (delete "indexJobTimeout" (delete "indexJob" d)).

(** The write [save] makes on the document it finds, or on the seed of
    the document it inserts. *)
Definition saved (now : Z) (entry : Entry) (d : Document) : Document :=
  apply_update (op_update (toUpdateOneOperation now entry)) d.

(** *** Calls and histories *)

(** The saved entry names no lease: exactly the entries whose [save] the
    store accepts (lemma [save_accepted] below). *)
Definition carries_no_lease (entry : Entry) : Prop :=
  indexJob entry = None ∧ indexJobTimeout entry = None.

#[global] Instance carries_no_lease_dec entry : Decision (carries_no_lease entry).
Proof. unfold carries_no_lease. apply _. Defined.

(** A call of one of the four writing methods of the repository, with the
    clock and token values it reads. *)
Inductive Call : Type :=
| CallSave (now : Z) (entry : Entry)
| CallSaveMany (entries : list (Z * Entry))
| CallGetIndexJob (indexJob : string) (timestamp : Z) (count : nat) (timeout : Z)
| CallSetIndexJobFinished (jobId : string).

(** The entries a call hands back to its caller. *)
Definition returned (k : Call) (c : Collection) : list Document :=
  match k with
  | CallGetIndexJob indexJob timestamp count timeout =>
      match (getIndexJob indexJob timestamp count timeout c).2 with
      | Ok (_, entries) => entries
      | Err _ => []
      end
  | _ => []
  end.

(** The collection a call leaves behind, whether it returns or throws. *)
Definition perform (k : Call) (c : Collection) : Collection :=
  match k with
  | CallSave now entry =>
      match save now entry c with
      | Ok c' => c'
      | Err _ => c
      end
  | CallSaveMany entries => (saveMany entries c).1
  | CallGetIndexJob indexJob timestamp count timeout =>
      (getIndexJob indexJob timestamp count timeout c).1
  | CallSetIndexJobFinished jobId =>
      match setIndexJobFinished jobId c with
      | Ok c' => c'
      | Err _ => c
      end
  end.

(** The watermarks of every entry the call saves are in order. *)
Definition saves_ordered (k : Call) : Prop :=
  match k with
  | CallSave _ entry => firstSeen entry ≤ lastSeen entry
  | CallSaveMany entries =>
      Forall (λ p : Z * Entry, firstSeen p.2 ≤ lastSeen p.2) entries
  | _ => True
  end.

(** A call that leaves the lease of job [jobId] on the entry [i] alone:
    it does not save [i], it does not release [jobId], and if it is a
    claim it carries another token and is made before [deadline]. *)
Definition bystander (jobId : string) (deadline : Z) (i : option Value)
    (k : Call) : Prop :=
  match k with
  | CallSave _ entry => Some (VStr (id entry)) ≠ i
  | CallSaveMany entries =>
      Forall (λ p : Z * Entry, Some (VStr (id p.2)) ≠ i) entries
  | CallGetIndexJob indexJob timestamp _ _ =>
      indexJob ≠ jobId ∧ timestamp < deadline
  | CallSetIndexJobFinished jobId' => jobId' ≠ jobId
  end.

(** A history of calls, oldest first, with everything the claims among
    them returned. *)
Fixpoint history (ks : list Call) (c : Collection)
  : Collection * list Document :=
  match ks with
  | [] => (c, [])
  | k :: rest =>
      let '(c', out) := history rest (perform k c) in
      (c', returned k c ++ out)
  end.

(** Successive [save] calls; the first one the store rejects throws. *)
Fixpoint save_all (saves : list (Z * Entry)) (c : Collection)
  : Result Collection :=
  match saves with
  | [] => Ok c
  | (now, entry) :: rest =>
      match save now entry c with
      | Ok c' => save_all rest c'
      | Err e => Err e
      end
  end.

(** The document stored under [i], if there is one. *)
Definition stored (i : string) (c : Collection) : option Document :=
  List.find (matches (FEq "_id" (VStr i))) c.

(** [m] is the least, respectively the greatest, element of [xs]. *)
Definition is_minimum (m : Z) (xs : list Z) : Prop :=
  m ∈ xs ∧ Forall (λ x, m ≤ x) xs.

Definition is_maximum (m : Z) (xs : list Z) : Prop :=
  m ∈ xs ∧ Forall (λ x, x ≤ m) xs.

(** *** Two claims running concurrently

    The store applies one write to one document at a time.  A running
    [getIndexJob] is therefore a sequence of store steps, the [count]
    [updateOne]s of its bulk followed by the read-back, and the steps of
    two running calls can interleave in any way. *)

Record ClaimCall : Type := {
  cc_job : string;
  cc_timestamp : Z;
  cc_count : nat;
  cc_timeout : Z
}.

Record Progress : Type := {
  pending : nat;                               (* updates of the bulk still to run *)
  answer : option (Result (list Document))     (* what the call returned, once it has *)
}.

Definition start (k : ClaimCall) : Progress :=
  {| pending := cc_count k; answer := None |}.

(** The next store step of a running call. *)
Definition advance (k : ClaimCall) (p : Progress) (c : Collection)
  : Progress * Collection :=
  match answer p with
  | Some _ => (p, c)
  | None =>
      match pending p with
      | S m =>
          match updateOne (indexJobFilter (cc_timestamp k))
                  (indexJobUpdate (cc_job k) (cc_timestamp k) (cc_timeout k))
                  false c with
          | Ok c' => ({| pending := m; answer := None |}, c')
          | Err e => ({| pending := m; answer := Some (Err e) |}, c)
          end
      | O =>
          ({| pending := 0;
              answer := Some (Ok (loadManyByFilter (FEq "indexJob" (VStr (cc_job k))) c)) |},
           c)
      end
  end.

(** Run two calls under a schedule: [true] lets the first call take its
    next step, [false] the second. *)
Fixpoint interleave (schedule : list bool) (a b : ClaimCall)
    (pa pb : Progress) (c : Collection) : Progress * Progress * Collection :=
  match schedule with
  | [] => (pa, pb, c)
  | true :: rest =>
      let '(pa', c') := advance a pa c in interleave rest a b pa' pb c'
  | false :: rest =>
      let '(pb', c') := advance b pb c in interleave rest a b pa pb' c'
  end.

(** The store steps a running call still has to take. *)
Definition remaining (p : Progress) : nat :=
  match answer p with
  | Some _ => 0
  | None => S (pending p)
  end.

(** The number of turns a schedule gives to one of the two calls. *)
Definition turns (who : bool) (schedule : list bool) : nat :=
  length (List.filter (Bool.eqb who) schedule).

(** The call has not thrown. *)
Definition unfailed (p : Progress) : Prop :=
  match answer p with
  | Some (Err _) => False
  | _ => True
  end.

(** Every document that carries the token of [k] carries the timeout
    [k] writes with it. *)
Definition lease_of (k : ClaimCall) (c : Collection) : Prop :=
  ∀ d : Document, d ∈ c → tagged (cc_job k) d →
    d !! "indexJobTimeout" = Some (VNum (cc_timestamp k + cc_timeout k)).

(** Every entry [k] has returned is still stored under the token of [k]. *)
Definition answered (k : ClaimCall) (p : Progress) (c : Collection) : Prop :=
  ∀ r, answer p = Some (Ok r) →
    ∀ x : Document, x ∈ r →
      ∃ d : Document, d ∈ c ∧ d !! "_id" = x !! "_id" ∧ tagged (cc_job k) d.

End Protocol.

(** ** Sample data *)

Module Scenario.
Import Store Repo Protocol.

(** Entry [E1] as first observed at time 0. *)
Definition entryE1 : Entry := {|
  id := "E1"; firstSeen := 0; lastSeen := 0;
  indexRequiredSince := None; indexJobTimeout := None; indexJob := None;
  descriptive := {[ "title" := VStr "news" ]}
|}.

(** Its document once saved: pending. *)
Definition pendingE1 : Document :=
  <["_id" := VStr "E1"]> (<["indexRequiredSince" := VNum 0]>
    (<["firstSeen" := VNum 0]> (<["lastSeen" := VNum 0]>
       {[ "title" := VStr "news" ]}))).

(** Its document once claimed at time 1 for 30 time units by job [J1]. *)
Definition leasedE1 : Document :=
  <["indexJob" := VStr "J1"]> (<["indexJobTimeout" := VNum 31]> pendingE1).

(** The entry as [getIndexJob] hands it to a worker, lease fields
    included. *)
Definition claimedEntryE1 : Entry := {|
  id := "E1"; firstSeen := 0; lastSeen := 0;
  indexRequiredSince := Some 0; indexJobTimeout := Some 31;
  indexJob := Some "J1";
  descriptive := {[ "title" := VStr "news" ]}
|}.

(** [E1] observed again between -5 and 100 by a worker that holds it
    under the lease of [J1], lease fields still on the entry. *)
Definition lateE1 : Entry := {|
  id := "E1"; firstSeen := -5; lastSeen := 100;
  indexRequiredSince := Some 0; indexJobTimeout := Some 31;
  indexJob := Some "J1";
  descriptive := {[ "title" := VStr "news" ]}
|}.

(** An entry whose watermarks are the wrong way round. *)
Definition backwardsE2 : Entry := {|
  id := "E2"; firstSeen := 5; lastSeen := 3;
  indexRequiredSince := None; indexJobTimeout := None; indexJob := None;
  descriptive := ∅
|}.

Definition entryE2 : Entry := {|
  id := "E2"; firstSeen := 0; lastSeen := 0;
  indexRequiredSince := None; indexJobTimeout := None; indexJob := None;
  descriptive := ∅
|}.

(** [E1] observed again, between times 2 and 7. *)
Definition entryE1_again : Entry := {|
  id := "E1"; firstSeen := 2; lastSeen := 7;
  indexRequiredSince := None; indexJobTimeout := None; indexJob := None;
  descriptive := {[ "title" := VStr "news, updated" ]}
|}.

(** A claim that read the clock at 0 and one that read it at 10, both
    asking for a lease of 10. *)
Definition claimA : ClaimCall :=
  {| cc_job := "JA"; cc_timestamp := 0; cc_count := 1; cc_timeout := 10 |}.

Definition claimB : ClaimCall :=
  {| cc_job := "JB"; cc_timestamp := 10; cc_count := 2; cc_timeout := 10 |}.

(** Two claims that read the clock at the same time. *)
Definition claimC : ClaimCall :=
  {| cc_job := "JC"; cc_timestamp := 5; cc_count := 2; cc_timeout := 10 |}.

Definition claimD : ClaimCall :=
  {| cc_job := "JD"; cc_timestamp := 5; cc_count := 2; cc_timeout := 10 |}.

Definition pendingE2 : Document :=
  <["_id" := VStr "E2"]> (<["indexRequiredSince" := VNum 0]>
    (<["firstSeen" := VNum 0]> {[ "lastSeen" := VNum 0 ]})).

End Scenario.

(** ** The reading side of the repository *)

Module Reads.
Import Store Repo.

(** An index of the collection: the field it is keyed on and, for a
    partial index, the filter a document must match to be in it. *)
Record IndexSpecification : Type := {
  key : string;
  partialFilterExpression : option FilterQuery
}.

(** The constant [indexes].  Modelled from the spec: the values of the
    [Field] enumeration of [common/models], which is not part of the
    sources at hand, are the field names the filters of the repository
    use. *)
Definition indexes : list IndexSpecification := [
  {| key := "firstSeen"; partialFilterExpression := None |};
  {| key := "lastSeen"; partialFilterExpression := None |};
  {| key := "indexRequiredSince";
     partialFilterExpression := Some (FExists "indexRequiredSince" true) |};
  {| key := "indexJobTimeout";
     partialFilterExpression := Some (FExists "indexJobTimeout" true) |};
  {| key := "indexJob";
     partialFilterExpression := Some (FExists "indexJob" true) |}
].

(** The index holds the document: always for a full index, when the
    partial filter matches for a partial one. *)
Definition in_index (spec : IndexSpecification) (d : Document) : bool :=
  match partialFilterExpression spec with
  | None => true
  | Some q => matches q d
  end.

(** The index of [indexes] keyed on [field]. *)
Definition index_on (field : string) : option IndexSpecification :=
  List.find (λ spec, bool_decide (key spec = field)) indexes.

Inductive LoadError : Type :=
| NotFound.

(** Modelled from the spec: [load(id)] hands over to
    [baseRepository.load(id)] of [@tstdl/mongo], which is not part of the
    sources at hand; a point lookup by [{ _id: id }] that fails with
    [NotFound] when the id has no record. *)
Definition load (i : string) (c : Collection) : Document + LoadError :=
  match List.find (matches (FEq "_id" (VStr i))) c with
  | Some d => inl d
  | None => inr NotFound
  end.

(** Modelled from the spec: [loadMany(ids)] hands over to
    [baseRepository.loadManyById(ids)] of [@tstdl/mongo], which is not
    part of the sources at hand; the documents found by
    [{ _id: { $in: ids } }], ids without a record being passed over.  The
    order of the result is the store's; nothing below relies on it. *)
Definition loadMany (ids : list string) (c : Collection) : Collection :=
  List.filter (λ d, existsb (λ i, matches (FEq "_id" (VStr i)) d) ids) c.

End Reads.

(** ** Further vocabulary *)

Module Batch.
Import Store Repo Protocol.

(** One [updateOne] of the bulk of [getIndexJob], the store being free
    to write any one of the documents that match: none matches and
    nothing is written, or one eligible document gets the lease. *)
Inductive claims_any (jobId : string) (timestamp timeout : Z)
  : Collection → Collection → Prop :=
| claims_nothing (c : Collection) :
    Forall (λ d, eligible timestamp d = false) c →
    claims_any jobId timestamp timeout c c
| claims_one (l1 : Collection) (d : Document) (l2 : Collection) :
    eligible timestamp d = true →
    claims_any jobId timestamp timeout
      (l1 ++ d :: l2) (l1 ++ claimed jobId timestamp timeout d :: l2).

(** The [k] updates of the bulk, one after the other, each with its own
    choice of document. *)
Inductive bulk_any (jobId : string) (timestamp timeout : Z)
  : nat → Collection → Collection → Prop :=
| bulk_done (c : Collection) : bulk_any jobId timestamp timeout 0 c c
| bulk_next (k : nat) (c c1 c2 : Collection) :
    claims_any jobId timestamp timeout c c1 →
    bulk_any jobId timestamp timeout k c1 c2 →
    bulk_any jobId timestamp timeout (S k) c c2.

(** What holds of the documents while a bulk started on [c0] under a
    fresh token runs: one that carries the token is the lease written
    on an eligible document of [c0], one that does not is a document of
    [c0]. *)
Definition bulk_invariant (jobId : string) (timestamp timeout : Z)
    (c0 c : Collection) : Prop :=
  ∀ x : Document, x ∈ c →
    (tagged jobId x → ∃ d : Document,
        d ∈ c0 ∧ eligible timestamp d = true ∧
        x = claimed jobId timestamp timeout d) ∧
    (¬ tagged jobId x → x ∈ c0).

(** The read-back of [getIndexJob]: the documents that carry the token. *)
Definition read_back (jobId : string) (c : Collection) : Collection :=
  loadManyByFilter (FEq "indexJob" (VStr jobId)) c.

(** The document a first save of the entry stores. *)
Definition first_saved (p : Z * Entry) : Document :=
  <["indexRequiredSince" := VNum p.1]> (toMongoDocument p.2).

(** The [_id]s of a collection, in natural order. *)
Definition ids (c : Collection) : list (option Value) :=
  map (λ d : Document, d !! "_id") c.

(** The field names [toMongoDocument] and [toUpdateOneOperation] treat
    by name; every other field of an entry is descriptive. *)
Definition reserved_fields : gset string :=
  {[ "_id"; "id"; "firstSeen"; "lastSeen";
     "indexRequiredSince"; "indexJob"; "indexJobTimeout" ]}.

(** The entry with another marker on it. *)
Definition with_marker (m : option Z) (entry : Entry) : Entry := {|
  id := id entry;
  firstSeen := firstSeen entry;
  lastSeen := lastSeen entry;
  indexRequiredSince := m;
  indexJobTimeout := indexJobTimeout entry;
  indexJob := indexJob entry;
  descriptive := descriptive entry
|}.

(** The entries of a bulk that the store accepts. *)
Definition accepted (entries : list (Z * Entry)) : list (Z * Entry) :=
  List.filter (λ p, bool_decide (carries_no_lease p.2)) entries.

(** The entries of a bulk that the store rejects. *)
Definition rejected (entries : list (Z * Entry)) : list (Z * Entry) :=
  List.filter (λ p, negb (bool_decide (carries_no_lease p.2))) entries.

(** The record [save] leaves under the id of the entry, given the record
    that was there. *)
Definition merged (now : Z) (entry : Entry) (old : option Document)
  : Document :=
  saved now entry (default {[ "_id" := VStr (id entry) ]} old).

End Batch.

Import Store Repo Protocol Scenario.

(** Settle a decidable statement about concrete data by evaluation. *)
Ltac by_evaluation := apply (bool_decide_unpack _); vm_compute; exact I.

(** * Facts about the store *)

Section StoreFacts.

Lemma elem_of_lease_fields field :
  field ∈ lease_fields ↔
  field = "indexJob" ∨ field = "indexJobTimeout" ∨ field = "indexRequiredSince".
Proof.
  unfold lease_fields. rewrite !elem_of_union, !elem_of_singleton. tauto.
Qed.

Lemma elem_of_loadManyByFilter q (c : Collection) (e : Document) :
  e ∈ loadManyByFilter q c ↔ e ∈ c ∧ matches q e = true.
Proof.
  unfold loadManyByFilter. rewrite !list_elem_of_In. apply filter_In.
Qed.

Lemma matches_FEq field v (d : Document) :
  matches (FEq field v) d = true ↔ d !! field = Some v.
Proof. simpl. apply bool_decide_eq_true. Qed.

Lemma update_first_Some q u (c c' : Collection) :
  update_first q u c = Some c' →
  ∃ l1 d l2, c = l1 ++ d :: l2 ∧ matches q d = true ∧
             Forall (λ x, matches q x = false) l1 ∧
             c' = l1 ++ apply_update u d :: l2.
Proof.
  revert c'. induction c as [|x rest IH]; intros c' H; simpl in H; [done|].
  destruct (matches q x) eqn:Hm.
  - injection H as <-. exists [], x, rest. by repeat split.
  - destruct (update_first q u rest) as [r|] eqn:Hr; simpl in H; [|done].
    injection H as <-.
    destruct (IH r eq_refl) as (l1 & d & l2 & -> & Hd & Hl1 & ->).
    exists (x :: l1), d, l2. repeat split; auto.
Qed.

Lemma update_first_None q u (c : Collection) :
  update_first q u c = None ↔ Forall (λ x, matches q x = false) c.
Proof.
  induction c as [|x rest IH]; simpl.
  - split; [constructor|done].
  - destruct (matches q x) eqn:Hm.
    + split; [done|]. intros H. inversion H; congruence.
    + destruct (update_first q u rest) eqn:Hr; simpl.
      * split; [done|]. intros H. inversion H; subst.
        apply IH in H3. done.
      * split; [|done]. intros _. constructor; [done|]. by apply IH.
Qed.

Lemma lookup_apply_max given (d : Document) field :
  given !! field = None → apply_max given d !! field = d !! field.
Proof.
  intros H. unfold apply_max. rewrite lookup_union_with, H.
  by destruct (d !! field).
Qed.

Lemma lookup_apply_min given (d : Document) field :
  given !! field = None → apply_min given d !! field = d !! field.
Proof.
  intros H. unfold apply_min. rewrite lookup_union_with, H.
  by destruct (d !! field).
Qed.

(** What an update does to one field. *)
Lemma lookup_apply_update u (d : Document) field :
  apply_update u d !! field =
    match upd_unset u !! field with
    | Some _ => None
    | None =>
        match upd_set u !! field with
        | Some v => Some v
        | None => apply_min (upd_min u) (apply_max (upd_max u) d) !! field
        end
    end.
Proof.
  unfold apply_update. rewrite lookup_difference.
  destruct (upd_unset u !! field); [done|].
  rewrite lookup_union. destruct (upd_set u !! field); simpl.
  - by destruct (apply_min _ _ !! field).
  - by destruct (apply_min _ _ !! field).
Qed.

End StoreFacts.

(** * Facts about a claim *)

Section ClaimFacts.

Variables (jobId : string) (timestamp timeout : Z).

Lemma indexJobUpdate_conflict_free :
  conflict_free (indexJobUpdate jobId timestamp timeout).
Proof.
  unfold conflict_free; simpl. rewrite !dom_empty_L.
  repeat split; (apply disjoint_empty_l || apply disjoint_empty_r).
Qed.

Lemma lookup_claimed (d : Document) field :
  claimed jobId timestamp timeout d !! field =
    if decide (field = "indexJob") then Some (VStr jobId)
    else if decide (field = "indexJobTimeout")
         then Some (VNum (timestamp + timeout))
         else d !! field.
Proof.
  unfold claimed. rewrite lookup_apply_update; simpl.
  rewrite lookup_empty.
  repeat case_decide; subst; simplify_map_eq; try done.
  rewrite lookup_apply_min, lookup_apply_max by apply lookup_empty. done.
Qed.

Lemma claimed_tagged (d : Document) :
  tagged jobId (claimed jobId timestamp timeout d).
Proof. unfold tagged. by rewrite lookup_claimed. Qed.

Lemma claimed_timeout (d : Document) :
  claimed jobId timestamp timeout d !! "indexJobTimeout"
  = Some (VNum (timestamp + timeout)).
Proof. by rewrite lookup_claimed. Qed.

Lemma claimed_other (d : Document) field :
  field ≠ "indexJob" → field ≠ "indexJobTimeout" →
  claimed jobId timestamp timeout d !! field = d !! field.
Proof. intros. rewrite lookup_claimed. by repeat case_decide. Qed.

Lemma claimed_same_outside_lease (d : Document) :
  same_outside_lease d (claimed jobId timestamp timeout d).
Proof.
  intros field Hf. rewrite elem_of_lease_fields in Hf.
  apply claimed_other; intros ->; tauto.
Qed.

Lemma updateOne_claim (c : Collection) :
  updateOne (indexJobFilter timestamp)
    (indexJobUpdate jobId timestamp timeout) false c
  = Ok (claim_step jobId timestamp timeout c).
Proof.
  unfold updateOne, claim_step.
  destruct (decide _) as [|n]; [|destruct n; apply indexJobUpdate_conflict_free].
  by destruct (update_first _ _ c).
Qed.

Lemma after_claims_iter k (c : Collection) :
  bulkWrite true
    (replicate k {| op_filter := indexJobFilter timestamp;
                    op_update := indexJobUpdate jobId timestamp timeout;
                    op_upsert := false |}) c
  = (Nat.iter k (claim_step jobId timestamp timeout) c, []).
Proof.
  revert c. induction k as [|k IH]; intros c; [done|].
  cbn [replicate bulkWrite op_filter op_update op_upsert].
  rewrite updateOne_claim, IH. by rewrite Nat.iter_succ_r.
Qed.

Lemma after_claims_S k (c : Collection) :
  after_claims (S k) jobId timestamp timeout c
  = claim_step jobId timestamp timeout (after_claims k jobId timestamp timeout c).
Proof. unfold after_claims. by rewrite !after_claims_iter. Qed.

Lemma after_claims_0 (c : Collection) :
  after_claims 0 jobId timestamp timeout c = c.
Proof. done. Qed.

(** [getIndexJob] never throws: it returns the documents that carry the
    token once the bulk has run. *)
Lemma getIndexJob_unfold count (c : Collection) :
  getIndexJob jobId timestamp count timeout c
  = (after_claims count jobId timestamp timeout c,
     Ok (jobId,
         loadManyByFilter (FEq "indexJob" (VStr jobId))
           (after_claims count jobId timestamp timeout c))).
Proof.
  unfold getIndexJob, after_claims. by rewrite after_claims_iter.
Qed.

(** A step of the bulk either finds nothing eligible, or claims the first
    eligible document. *)
Lemma claim_step_cases (c : Collection) :
  (Forall (λ d, eligible timestamp d = false) c ∧
   claim_step jobId timestamp timeout c = c) ∨
  (∃ l1 d l2, c = l1 ++ d :: l2 ∧ eligible timestamp d = true ∧
     Forall (λ x, eligible timestamp x = false) l1 ∧
     claim_step jobId timestamp timeout c
     = l1 ++ claimed jobId timestamp timeout d :: l2).
Proof.
  unfold claim_step.
  destruct (update_first _ _ c) as [c'|] eqn:H.
  - right. by apply update_first_Some in H.
  - left. by apply update_first_None in H.
Qed.

End ClaimFacts.

Lemma eligible_spec timestamp (d : Document) :
  eligible timestamp d = true ↔
  is_Some (d !! "indexRequiredSince") ∧
  (d !! "indexJob" = None ∨ lease_expired timestamp d).
Proof.
  unfold eligible, indexJobFilter, lease_expired; simpl.
  rewrite !andb_true_r, orb_false_r, andb_true_iff, orb_true_iff.
  destruct (d !! "indexRequiredSince") as [r|],
           (d !! "indexJob") as [j|],
           (d !! "indexJobTimeout") as [[]|]; simpl;
    repeat case_bool_decide; simpl;
    repeat match goal with
           | H : ¬ is_Some (Some _) |- _ => destruct H; eauto
           | H : is_Some None |- _ => by destruct H
           end;
    split; intros [H1 H2]; split; eauto;
    try discriminate; try (by destruct H1);
    destruct H2 as [H2|H2]; try discriminate; try done; eauto.
Qed.

Section ClaimBatch.

Variables (jobId : string) (timestamp timeout : Z).

Local Abbreviation tag_filter := (FEq "indexJob" (VStr jobId)).

Lemma job_unused_load (c : Collection) :
  job_unused jobId c ↔ loadManyByFilter tag_filter c = [].
Proof.
  unfold job_unused, loadManyByFilter, tagged.
  induction c as [|d c IH]; cbn [List.filter].
  - split; [done|constructor].
  - destruct (matches tag_filter d) eqn:Hd.
    + apply matches_FEq in Hd. split; [|done].
      intros H. inversion H; subst. done.
    + rewrite <- IH. split.
      * intros H. by inversion H.
      * intros H. constructor; [|done].
        intros Ht. apply matches_FEq in Ht. congruence.
Qed.

(** One step of the bulk tags at most one more document. *)
Lemma claim_step_tags_one (c : Collection) :
  (length (loadManyByFilter tag_filter (claim_step jobId timestamp timeout c))
   ≤ S (length (loadManyByFilter tag_filter c)))%nat.
Proof.
  destruct (claim_step_cases jobId timestamp timeout c)
    as [[_ ->]|(l1 & d & l2 & -> & _ & _ & ->)]; [lia|].
  unfold loadManyByFilter. rewrite !List.filter_app, !length_app.
  cbn [List.filter].
  repeat match goal with
         | |- context [if ?b then _ else _] => destruct b
         end; cbn [length]; lia.
Qed.

Lemma after_claims_tags (k : nat) (c : Collection) :
  (length (loadManyByFilter tag_filter (after_claims k jobId timestamp timeout c))
   ≤ k + length (loadManyByFilter tag_filter c))%nat.
Proof.
  induction k as [|k IH]; [by rewrite after_claims_0|].
  rewrite after_claims_S.
  etrans; [apply claim_step_tags_one|]. lia.
Qed.

(** Where a tagged document comes from: some step of the bulk found it
    eligible and wrote the lease on it. *)
Lemma after_claims_origin (k : nat) (c : Collection) (e : Document) :
  job_unused jobId c →
  e ∈ after_claims k jobId timestamp timeout c →
  tagged jobId e →
  ∃ j d, (j < k)%nat ∧
    d ∈ after_claims j jobId timestamp timeout c ∧
    eligible timestamp d = true ∧
    e = claimed jobId timestamp timeout d ∧
    e ∈ after_claims (S j) jobId timestamp timeout c.
Proof.
  intros Hunused. revert e. induction k as [|k IH]; intros e He Htag.
  - rewrite after_claims_0 in He.
    unfold job_unused in Hunused. rewrite Forall_forall in Hunused.
    by destruct (Hunused e He).
  - rewrite after_claims_S in He.
    pose proof (after_claims_S jobId timestamp timeout k c) as HS.
    destruct (claim_step_cases jobId timestamp timeout
                (after_claims k jobId timestamp timeout c))
      as [[_ Hsame]|(l1 & d & l2 & Hc & Hd & _ & Hstep)].
    + rewrite Hsame in He.
      destruct (IH e He Htag) as (j & d & Hj & H). exists j, d. split; [lia|done].
    + rewrite Hstep in He.
      assert (Hold : ∀ x, x ∈ l1 ∨ x ∈ l2 →
                x ∈ after_claims k jobId timestamp timeout c).
      { intros x Hx. rewrite Hc, elem_of_app, elem_of_cons. tauto. }
      apply elem_of_app in He as [He|He].
      { destruct (IH e (Hold e (or_introl He)) Htag) as (j & d' & Hj & H).
        exists j, d'. split; [lia|done]. }
      apply elem_of_cons in He as [->|He].
      { exists k, d. split; [lia|]. repeat split; auto.
        - rewrite Hc, elem_of_app, elem_of_cons. tauto.
        - rewrite HS, Hstep, elem_of_app, elem_of_cons. tauto. }
      destruct (IH e (Hold e (or_intror He)) Htag) as (j & d' & Hj & H).
      exists j, d'. split; [lia|done].
Qed.

End ClaimBatch.

(** * Facts about a release *)

Section ReleaseFacts.

Lemma lookup_released (d : Document) field :
  released d !! field = if decide (field ∈ lease_fields) then None else d !! field.
Proof.
  unfold released. case_decide as H.
  - apply elem_of_lease_fields in H as [-> | [-> | ->]].
    + rewrite !lookup_delete_ne by done. apply lookup_delete_eq.
    + rewrite lookup_delete_ne by done. apply lookup_delete_eq.
    + apply lookup_delete_eq.
  - rewrite elem_of_lease_fields in H.
    rewrite !lookup_delete_ne; [done|intros <-; tauto..].
Qed.

Lemma released_same_outside_lease (d : Document) :
  same_outside_lease d (released d).
Proof. intros field Hf. rewrite lookup_released. by case_decide. Qed.

Lemma released_not_tagged jobId (d : Document) : ¬ tagged jobId (released d).
Proof.
  unfold tagged. rewrite lookup_released. case_decide as H; [done|].
  destruct H. apply elem_of_lease_fields. tauto.
Qed.

(** [setIndexJobFinished] never throws and rewrites exactly the documents
    that carry the token. *)
Lemma setIndexJobFinished_unfold jobId (c : Collection) :
  setIndexJobFinished jobId c
  = Ok (map (λ d, if matches (FEq "indexJob" (VStr jobId)) d
                  then released d else d) c).
Proof.
  unfold setIndexJobFinished, updateMany.
  destruct (decide _) as [_|n].
  - f_equal. apply map_ext. intros d.
    destruct (matches _ d); [|done].
    apply map_eq. intros field.
    rewrite lookup_apply_update, lookup_released; cbn [upd_unset upd_set upd_max upd_min].
    case_decide as H.
    + apply elem_of_lease_fields in H as [-> | [-> | ->]]; done.
    + rewrite elem_of_lease_fields in H.
      rewrite !lookup_insert_ne, lookup_singleton_ne by (intros <-; tauto).
      rewrite lookup_empty.
      by rewrite lookup_apply_min, lookup_apply_max by apply lookup_empty.
  - destruct n. unfold conflict_free; simpl. rewrite !dom_empty_L.
    repeat split; (apply disjoint_empty_l || apply disjoint_empty_r).
Qed.

Lemma same_outside_lease_refl (d : Document) : same_outside_lease d d.
Proof. by intros field _. Qed.

Lemma same_outside_lease_trans (d1 d2 d3 : Document) :
  same_outside_lease d1 d2 → same_outside_lease d2 d3 → same_outside_lease d1 d3.
Proof. intros H12 H23 field Hf. by rewrite H23, H12. Qed.

Lemma Forall2_same_outside_lease_refl (c : Collection) :
  Forall2 same_outside_lease c c.
Proof. induction c; constructor; auto using same_outside_lease_refl. Qed.

Lemma Forall2_same_outside_lease_trans (c1 c2 c3 : Collection) :
  Forall2 same_outside_lease c1 c2 → Forall2 same_outside_lease c2 c3 →
  Forall2 same_outside_lease c1 c3.
Proof.
  intros H12. revert c3. induction H12; intros c3 H23; inversion H23; subst;
    constructor; eauto using same_outside_lease_trans.
Qed.

Lemma claim_step_frame jobId timestamp timeout (c : Collection) :
  Forall2 same_outside_lease c (claim_step jobId timestamp timeout c).
Proof.
  destruct (claim_step_cases jobId timestamp timeout c)
    as [[_ ->]|(l1 & d & l2 & -> & _ & _ & ->)].
  - apply Forall2_same_outside_lease_refl.
  - apply Forall2_app; [apply Forall2_same_outside_lease_refl|].
    constructor; [apply claimed_same_outside_lease|].
    apply Forall2_same_outside_lease_refl.
Qed.

Lemma after_claims_frame k jobId timestamp timeout (c : Collection) :
  Forall2 same_outside_lease c (after_claims k jobId timestamp timeout c).
Proof.
  induction k as [|k IH]; [apply Forall2_same_outside_lease_refl|].
  rewrite after_claims_S.
  eapply Forall2_same_outside_lease_trans; [exact IH|apply claim_step_frame].
Qed.

End ReleaseFacts.

(** * The claims *)

(** C1.  A call of [getIndexJob] with a fresh token returns at most
    [count] entries; each returned entry was written by one of the
    [count] conditional updates, on a document that satisfied the
    eligibility predicate in the collection that update ran on; and in
    the collection the call leaves, each returned entry carries the
    returned job id and the timeout [timestamp + timeout]. *)
Theorem getIndexJob_claimed_batch jobId timestamp count timeout (c : Collection) :
  job_unused jobId c →
  ∃ entries,
    (getIndexJob jobId timestamp count timeout c).2 = Ok (jobId, entries) ∧
    (length entries ≤ count)%nat ∧
    ∀ e, e ∈ entries →
      (∃ k d, (k < count)%nat ∧
         d ∈ after_claims k jobId timestamp timeout c ∧
         eligible timestamp d = true ∧
         e = claimed jobId timestamp timeout d ∧
         e ∈ after_claims (S k) jobId timestamp timeout c) ∧
      e ∈ (getIndexJob jobId timestamp count timeout c).1 ∧
      e !! "indexJob" = Some (VStr jobId) ∧
      e !! "indexJobTimeout" = Some (VNum (timestamp + timeout)).
Proof.
  intros Hunused. rewrite getIndexJob_unfold. eexists. split; [done|].
  split.
  - pose proof (after_claims_tags jobId timestamp timeout count c) as H.
    apply job_unused_load in Hunused. rewrite Hunused in H. simpl in H. lia.
  - intros e He. apply elem_of_loadManyByFilter in He as [He Htag].
    apply matches_FEq in Htag.
    destruct (after_claims_origin jobId timestamp timeout count c e
                Hunused He Htag) as (k & d & Hk & Hd & Hel & -> & Hin).
    split; [by exists k, d|].
    split; [done|]. split; [done|]. apply claimed_timeout.
Qed.

Lemma getIndexJob_claimed_batch_witness :
  job_unused "J1" [pendingE1] ∧
  ∃ entries,
    (getIndexJob "J1" 1 5 30 [pendingE1]).2 = Ok ("J1"%string, entries) ∧
    (length entries ≤ 5)%nat.
Proof.
  assert (H : job_unused "J1" [pendingE1]).
  { repeat constructor. unfold tagged. vm_compute. discriminate. }
  split; [exact H|].
  destruct (getIndexJob_claimed_batch "J1" 1 5 30 [pendingE1] H)
    as (entries & Hr & Hlen & _).
  exists entries. split; assumption.
Defined.


(** C10.  [getIndexJob] accepts any lease duration.  With a duration that
    is zero or negative the call still returns, and each entry it claims
    carries a timeout [timestamp + timeout] that is not after the claim's
    own timestamp: the entry is in the Expired state at once, and eligible
    for every claim made at that time or later. *)
Theorem getIndexJob_nonpositive_timeout jobId timestamp count timeout
    (c : Collection) :
  timeout ≤ 0 →
  job_unused jobId c →
  ∃ entries,
    (getIndexJob jobId timestamp count timeout c).2 = Ok (jobId, entries) ∧
    ∀ e, e ∈ entries →
      e !! "indexJobTimeout" = Some (VNum (timestamp + timeout)) ∧
      timestamp + timeout ≤ timestamp ∧
      lease_state timestamp e = Expired ∧
      ∀ later, timestamp ≤ later → eligible later e = true.
Proof.
  intros Hneg Hunused. rewrite getIndexJob_unfold. eexists. split; [done|].
  intros e He. apply elem_of_loadManyByFilter in He as [He Htag].
  apply matches_FEq in Htag.
  destruct (after_claims_origin jobId timestamp timeout count c e
              Hunused He Htag) as (k & d & _ & _ & Hel & -> & _).
  apply eligible_spec in Hel as [[r Hr] _].
  assert (Hm : claimed jobId timestamp timeout d !! "indexRequiredSince" = Some r)
    by (by rewrite claimed_other).
  split; [apply claimed_timeout|]. split; [lia|]. split.
  - unfold lease_state. rewrite Hm, Htag, claimed_timeout.
    by rewrite bool_decide_eq_true_2 by lia.
  - intros later Hlater. apply eligible_spec. split; [by eexists|].
    right. unfold lease_expired. rewrite claimed_timeout. lia.
Qed.

Lemma getIndexJob_nonpositive_timeout_witness :
  0 ≤ 0 ∧ job_unused "J1" [pendingE1] ∧
  ∃ entries,
    (getIndexJob "J1" 1 5 0 [pendingE1]).2 = Ok ("J1"%string, entries) ∧
    ∀ e, e ∈ entries → ∀ later, 1 ≤ later → eligible later e = true.
Proof.
  assert (H : job_unused "J1" [pendingE1]).
  { repeat constructor. unfold tagged. vm_compute. discriminate. }
  split; [lia|]. split; [exact H|].
  destruct (getIndexJob_nonpositive_timeout "J1" 1 5 0 [pendingE1]
              ltac:(lia) H) as (entries & Hr & Hall).
  exists entries. split; [exact Hr|].
  intros e He. exact (proj2 (proj2 (proj2 (Hall e He)))).
Defined.

(** C8.  Neither a claim nor a release touches the watermarks or any
    descriptive field: document by document, the collection after the
    call agrees with the collection before it on every field other than
    [indexJob], [indexJobTimeout] and [indexRequiredSince]. *)
Theorem claim_and_release_frame (c : Collection) :
  (∀ jobId timestamp count timeout,
     Forall2 same_outside_lease c
       (getIndexJob jobId timestamp count timeout c).1) ∧
  (∀ jobId, ∃ c', setIndexJobFinished jobId c = Ok c' ∧
     Forall2 same_outside_lease c c').
Proof.
  split.
  - intros. rewrite getIndexJob_unfold. apply after_claims_frame.
  - intros. rewrite setIndexJobFinished_unfold. eexists. split; [done|].
    induction c as [|d c IH]; constructor; [|exact IH].
    destruct (matches _ d);
      [apply released_same_outside_lease|apply same_outside_lease_refl].
Qed.

(** C6.  [setIndexJobFinished] removes [indexRequiredSince], [indexJob]
    and [indexJobTimeout] from every document that carries the job id,
    which leaves it Idle, keeps its other fields, and leaves every other
    document as it was. *)
Theorem setIndexJobFinished_releases jobId (c : Collection) :
  ∃ c', setIndexJobFinished jobId c = Ok c' ∧
    Forall2 (λ d d',
      if decide (tagged jobId d)
      then d' !! "indexRequiredSince" = None ∧
           d' !! "indexJob" = None ∧
           d' !! "indexJobTimeout" = None ∧
           (∀ now, lease_state now d' = Idle) ∧
           same_outside_lease d d'
      else d' = d) c c'.
Proof.
  rewrite setIndexJobFinished_unfold. eexists. split; [done|].
  induction c as [|d c IH]; constructor; [|exact IH].
  destruct (matches _ d) eqn:Hm; case_decide as Ht.
  - assert (Hl : ∀ field, field ∈ lease_fields → released d !! field = None).
    { intros field Hf. rewrite lookup_released. by case_decide. }
    assert (Hr : released d !! "indexRequiredSince" = None)
      by (apply Hl, elem_of_lease_fields; tauto).
    repeat split.
    + exact Hr.
    + apply Hl, elem_of_lease_fields; tauto.
    + apply Hl, elem_of_lease_fields; tauto.
    + intros now. unfold lease_state. by rewrite Hr.
    + apply released_same_outside_lease.
  - apply matches_FEq in Hm. done.
  - destruct (matches_FEq "indexJob" (VStr jobId) d) as [_ H].
    rewrite H in Hm; done.
  - done.
Qed.

(** C3, as stated, fails: a job whose lease has run out but whose entries
    still carry its token is released like a live one.  [leasedE1] holds
    a lease of job [J1] that expired at 31; releasing [J1] at 32 strips
    the marker and the lease from it. *)
Lemma release_of_expired_lease_writes :
  ¬ (∀ jobId now (c : Collection),
       job_unused jobId c ∨ Forall (λ d, tagged jobId d → lease_expired now d) c →
       setIndexJobFinished jobId c = Ok c).
Proof.
  intros H. specialize (H "J1"%string 32 [leasedE1]).
  assert (Hexp : Forall (λ d, tagged "J1" d → lease_expired 32 d) [leasedE1]).
  { repeat constructor. intros _. vm_compute. discriminate. }
  specialize (H (or_intror Hexp)). vm_compute in H. discriminate.
Qed.

(** C3, amended.  For every job id that no stored entry carries (the job
    was released already, or its entries were claimed anew or saved
    again since), [setIndexJobFinished] raises no error and leaves the
    collection as it is; and once a job has been released no entry
    carries its id, so that releasing it again is such a call. *)
Theorem setIndexJobFinished_unused_noop jobId (c : Collection) :
  (job_unused jobId c → setIndexJobFinished jobId c = Ok c) ∧
  (∀ c', setIndexJobFinished jobId c = Ok c' → job_unused jobId c').
Proof.
  rewrite setIndexJobFinished_unfold. split.
  - intros Hunused. f_equal.
    induction Hunused as [|d c Hd _ IH]; [done|]. cbn [map]. rewrite IH.
    destruct (matches _ d) eqn:Hm; [|done].
    apply matches_FEq in Hm. done.
  - intros c' [= <-]. unfold job_unused.
    induction c as [|d c IH]; constructor; [|exact IH].
    case_bool_decide as Hm.
    + apply released_not_tagged.
    + exact Hm.
Qed.

Lemma setIndexJobFinished_unused_noop_witness :
  job_unused "J2" [leasedE1] ∧ setIndexJobFinished "J2" [leasedE1] = Ok [leasedE1].
Proof.
  assert (H : job_unused "J2" [leasedE1]).
  { repeat constructor. unfold tagged. vm_compute. discriminate. }
  split; [exact H|].
  exact (proj1 (setIndexJobFinished_unused_noop "J2" [leasedE1]) H).
Defined.

(** * Facts about a save *)

Section SaveFacts.

Variables (now : Z) (entry : Entry).

Local Abbreviation update := (op_update (toUpdateOneOperation now entry)).

Lemma lookup_set_optional field' v (d : Document) field :
  set_optional field' v d !! field = if decide (field = field') then v else d !! field.
Proof.
  unfold set_optional. case_decide as H; subst.
  - destruct v; [apply lookup_insert_eq|apply lookup_delete_eq].
  - destruct v; [by rewrite lookup_insert_ne|by rewrite lookup_delete_ne].
Qed.

Lemma toMongoDocument_id : toMongoDocument entry !! "_id" = Some (VStr (id entry)).
Proof. unfold toMongoDocument. by rewrite lookup_insert_eq. Qed.

Lemma toMongoDocument_indexJob :
  toMongoDocument entry !! "indexJob" = VStr <$> indexJob entry.
Proof.
  unfold toMongoDocument. rewrite !lookup_insert_ne by done.
  rewrite !lookup_set_optional. by repeat case_decide.
Qed.

Lemma toMongoDocument_indexJobTimeout :
  toMongoDocument entry !! "indexJobTimeout" = VNum <$> indexJobTimeout entry.
Proof.
  unfold toMongoDocument. rewrite !lookup_insert_ne by done.
  rewrite !lookup_set_optional. by repeat case_decide.
Qed.

(** The [$set] part of the update: the document without its watermarks,
    the marker overwritten with the current time. *)
Lemma lookup_save_set field :
  upd_set update !! field =
    if decide (field = "indexRequiredSince") then Some (VNum now)
    else if decide (field = "firstSeen") then None
    else if decide (field = "lastSeen") then None
    else toMongoDocument entry !! field.
Proof.
  cbn [toUpdateOneOperation op_update upd_set].
  repeat case_decide; subst.
  - apply lookup_insert_eq.
  - rewrite lookup_insert_ne by done. apply lookup_delete_eq.
  - rewrite lookup_insert_ne, lookup_delete_ne by done. apply lookup_delete_eq.
  - by rewrite lookup_insert_ne, !lookup_delete_ne by done.
Qed.

Lemma lookup_save_unset field :
  upd_unset update !! field =
    if decide (field = "indexJob") then Some (VStr "")
    else if decide (field = "indexJobTimeout") then Some (VStr "")
    else None.
Proof.
  cbn [toUpdateOneOperation op_update upd_unset].
  repeat case_decide; subst.
  - apply lookup_insert_eq.
  - rewrite lookup_insert_ne by done. apply lookup_singleton_eq.
  - by rewrite lookup_insert_ne, lookup_singleton_ne by done.
Qed.

Lemma lookup_save_max field :
  upd_max update !! field =
    if decide (field = "lastSeen") then Some (VNum (lastSeen entry)) else None.
Proof.
  cbn [toUpdateOneOperation op_update upd_max]. case_decide; subst.
  - apply lookup_singleton_eq.
  - by rewrite lookup_singleton_ne.
Qed.

Lemma lookup_save_min field :
  upd_min update !! field =
    if decide (field = "firstSeen") then Some (VNum (firstSeen entry)) else None.
Proof.
  cbn [toUpdateOneOperation op_update upd_min]. case_decide; subst.
  - apply lookup_singleton_eq.
  - by rewrite lookup_singleton_ne.
Qed.

(** The store accepts the update of a save exactly when the saved entry
    names no lease: a lease field of the entry is spread into [$set]
    while [$unset] names it too. *)
Lemma save_conflict_free : conflict_free update ↔ carries_no_lease entry.
Proof.
  unfold conflict_free, carries_no_lease.
  rewrite <- !map_disjoint_dom, !map_disjoint_alt. split.
  - intros (_ & _ & _ & _ & _ & H). split.
    + destruct (H "indexJob") as [H1|H1].
      * rewrite lookup_save_set in H1. repeat case_decide; try done.
        rewrite toMongoDocument_indexJob in H1. by destruct (indexJob entry).
      * rewrite lookup_save_unset in H1. by repeat case_decide.
    + destruct (H "indexJobTimeout") as [H1|H1].
      * rewrite lookup_save_set in H1. repeat case_decide; try done.
        rewrite toMongoDocument_indexJobTimeout in H1.
        by destruct (indexJobTimeout entry).
      * rewrite lookup_save_unset in H1. by repeat case_decide.
  - intros [Hj Ht]. repeat split; intros field;
      rewrite ?lookup_save_max, ?lookup_save_min,
              ?lookup_save_set, ?lookup_save_unset;
      repeat case_decide; subst; try done; auto.
    + left. by rewrite toMongoDocument_indexJob, Hj.
    + left. by rewrite toMongoDocument_indexJobTimeout, Ht.
Qed.

Lemma saved_indexJob (d : Document) : saved now entry d !! "indexJob" = None.
Proof.
  unfold saved. rewrite lookup_apply_update, lookup_save_unset.
  by repeat case_decide.
Qed.

Lemma saved_indexJobTimeout (d : Document) :
  saved now entry d !! "indexJobTimeout" = None.
Proof.
  unfold saved. rewrite lookup_apply_update, lookup_save_unset.
  by repeat case_decide.
Qed.

Lemma saved_indexRequiredSince (d : Document) :
  saved now entry d !! "indexRequiredSince" = Some (VNum now).
Proof.
  unfold saved. rewrite lookup_apply_update, lookup_save_unset, lookup_save_set.
  by repeat case_decide.
Qed.

Lemma saved_id (d : Document) :
  saved now entry d !! "_id" = Some (VStr (id entry)).
Proof.
  unfold saved. rewrite lookup_apply_update, lookup_save_unset, lookup_save_set.
  repeat case_decide; try done. by rewrite toMongoDocument_id.
Qed.

Lemma saved_firstSeen (d : Document) :
  saved now entry d !! "firstSeen" =
    Some (match d !! "firstSeen" with
          | Some v => value_min (VNum (firstSeen entry)) v
          | None => VNum (firstSeen entry)
          end).
Proof.
  unfold saved. rewrite lookup_apply_update, lookup_save_unset, lookup_save_set.
  repeat case_decide; try done.
  unfold apply_min. rewrite lookup_union_with, lookup_save_min.
  rewrite lookup_apply_max by (rewrite lookup_save_max; by case_decide).
  case_decide; [|done]. by destruct (d !! "firstSeen").
Qed.

Lemma saved_lastSeen (d : Document) :
  saved now entry d !! "lastSeen" =
    Some (match d !! "lastSeen" with
          | Some v => value_max (VNum (lastSeen entry)) v
          | None => VNum (lastSeen entry)
          end).
Proof.
  unfold saved. rewrite lookup_apply_update, lookup_save_unset, lookup_save_set.
  repeat case_decide; try done.
  rewrite lookup_apply_min by (rewrite lookup_save_min; by case_decide).
  unfold apply_max. rewrite lookup_union_with, lookup_save_max.
  case_decide; [|done]. by destruct (d !! "lastSeen").
Qed.

Lemma saved_matches (d : Document) :
  matches (FEq "_id" (VStr (id entry))) (saved now entry d) = true.
Proof. apply matches_FEq, saved_id. Qed.

(** An accepted save updates the first document with the entry's id, or
    appends a new one. *)
Lemma save_accepted (c : Collection) :
  carries_no_lease entry →
  save now entry c =
    Ok (match update_first (FEq "_id" (VStr (id entry))) update c with
        | Some c' => c'
        | None => c ++ [saved now entry {[ "_id" := VStr (id entry) ]}]
        end).
Proof.
  intros H. apply save_conflict_free in H.
  unfold save, updateOne. cbn [toUpdateOneOperation op_filter op_upsert].
  destruct (decide _) as [|n]; [|done].
  by destruct (update_first _ _ c).
Qed.

(** A rejected save throws and writes nothing. *)
Lemma save_rejected (c : Collection) :
  ¬ carries_no_lease entry → save now entry c = Err ConflictingUpdateOperators.
Proof.
  intros H. unfold save, updateOne.
  destruct (decide _) as [Hc|]; [|done].
  by apply save_conflict_free in Hc.
Qed.

(** The shape of the collection a save leaves. *)
Lemma perform_save_cases (c : Collection) :
  perform (CallSave now entry) c = c ∨
  (∃ l1 d l2, c = l1 ++ d :: l2 ∧ d !! "_id" = Some (VStr (id entry)) ∧
     Forall (λ x, x !! "_id" ≠ Some (VStr (id entry))) l1 ∧
     perform (CallSave now entry) c = l1 ++ saved now entry d :: l2) ∨
  (Forall (λ x, x !! "_id" ≠ Some (VStr (id entry))) c ∧
   perform (CallSave now entry) c
   = c ++ [saved now entry {[ "_id" := VStr (id entry) ]}]).
Proof.
  cbn [perform].
  destruct (decide (carries_no_lease entry)) as [H|H];
    [|rewrite save_rejected by done; by left].
  rewrite save_accepted by done.
  assert (Hno : ∀ l : Collection,
            Forall (λ x, matches (FEq "_id" (VStr (id entry))) x = false) l →
            Forall (λ x, x !! "_id" ≠ Some (VStr (id entry))) l).
  { intros l Hl. eapply Forall_impl; [exact Hl|]. intros x Hx Hid.
    apply matches_FEq in Hid. congruence. }
  destruct (update_first _ _ c) as [c'|] eqn:Hu.
  - apply update_first_Some in Hu as (l1 & d & l2 & -> & Hd & Hl1 & ->).
    right; left. exists l1, d, l2. apply matches_FEq in Hd. auto.
  - apply update_first_None in Hu. right; right. auto.
Qed.

End SaveFacts.

(** * The record invariants, write by write *)

Section InvariantFacts.

Lemma value_min_num a b : value_min (VNum a) (VNum b) = VNum (Z.min a b).
Proof.
  unfold value_min, value_ltb, value_compare.
  destruct (Z.compare_spec a b); f_equal; lia.
Qed.

Lemma value_max_num a b : value_max (VNum a) (VNum b) = VNum (Z.max a b).
Proof.
  unfold value_max, value_ltb, value_compare.
  destruct (Z.compare_spec b a); f_equal; lia.
Qed.

Lemma watermarks_ordered_spec (d : Document) :
  watermarks_ordered d ↔
  ∃ f l, d !! "firstSeen" = Some (VNum f) ∧ d !! "lastSeen" = Some (VNum l) ∧ f ≤ l.
Proof.
  unfold watermarks_ordered.
  destruct (d !! "firstSeen") as [[]|], (d !! "lastSeen") as [[]|];
    split; try done; try (by intros (? & ? & ? & ? & ?)).
  - intros H. by eexists _, _.
  - intros (? & ? & [= <-] & [= <-] & ?). done.
Qed.

Lemma watermarks_ordered_same (d d' : Document) :
  same_outside_lease d d' → watermarks_ordered d → watermarks_ordered d'.
Proof.
  intros Hs. unfold watermarks_ordered.
  rewrite !Hs; [done|rewrite elem_of_lease_fields; intros [?|[?|?]]; discriminate..].
Qed.

Lemma record_invariant_claimed jobId timestamp timeout (d : Document) :
  eligible timestamp d = true →
  record_invariant d → record_invariant (claimed jobId timestamp timeout d).
Proof.
  intros Hel (Hw & _ & _). apply eligible_spec in Hel as [[r Hr] _].
  split; [|split].
  - eapply watermarks_ordered_same; [apply claimed_same_outside_lease|done].
  - unfold lease_paired. rewrite !lookup_claimed. by repeat case_decide.
  - unfold leased_only_if_required. rewrite claimed_other by done. congruence.
Qed.

Lemma record_invariant_released (d : Document) :
  record_invariant d → record_invariant (released d).
Proof.
  intros (Hw & _ & _). split; [|split].
  - eapply watermarks_ordered_same; [apply released_same_outside_lease|done].
  - unfold lease_paired. rewrite !lookup_released.
    repeat case_decide; try done;
      match goal with H : _ ∉ lease_fields |- _ => destruct H end;
      apply elem_of_lease_fields; tauto.
  - intros _. rewrite lookup_released. case_decide as H; [done|].
    destruct H. apply elem_of_lease_fields; tauto.
Qed.

Lemma saved_lease_invariants now entry (d : Document) :
  lease_paired (saved now entry d) ∧ leased_only_if_required (saved now entry d).
Proof.
  unfold lease_paired, leased_only_if_required.
  rewrite saved_indexJob, saved_indexJobTimeout. done.
Qed.

(** Merging into a record keeps its watermarks in order, whatever the
    saved entry says. *)
Lemma record_invariant_saved now entry (d : Document) :
  record_invariant d → record_invariant (saved now entry d).
Proof.
  intros (Hw & _ & _). split; [|apply saved_lease_invariants].
  apply watermarks_ordered_spec in Hw as (f & l & Hf & Hl & Hle).
  apply watermarks_ordered_spec.
  exists (Z.min (firstSeen entry) f), (Z.max (lastSeen entry) l).
  rewrite saved_firstSeen, saved_lastSeen, Hf, Hl, value_min_num, value_max_num.
  repeat split; lia.
Qed.

(** A new record takes the watermarks of the saved entry as they are. *)
Lemma record_invariant_inserted now entry :
  firstSeen entry ≤ lastSeen entry →
  record_invariant (saved now entry {[ "_id" := VStr (id entry) ]}).
Proof.
  intros Hle. split; [|apply saved_lease_invariants].
  apply watermarks_ordered_spec.
  exists (firstSeen entry), (lastSeen entry).
  rewrite saved_firstSeen, saved_lastSeen.
  rewrite !lookup_singleton_ne by done. done.
Qed.

Lemma record_invariant_claim_step jobId timestamp timeout (c : Collection) :
  Forall record_invariant c →
  Forall record_invariant (claim_step jobId timestamp timeout c).
Proof.
  intros H.
  destruct (claim_step_cases jobId timestamp timeout c)
    as [[_ ->]|(l1 & d & l2 & -> & Hel & _ & ->)]; [done|].
  apply Forall_app in H as [H1 H2]. apply Forall_cons in H2 as [Hd H2].
  apply Forall_app. split; [done|]. apply Forall_cons. split; [|done].
  by apply record_invariant_claimed.
Qed.

Lemma record_invariant_perform_save now entry (c : Collection) :
  firstSeen entry ≤ lastSeen entry →
  Forall record_invariant c →
  Forall record_invariant (perform (CallSave now entry) c).
Proof.
  intros Hle H.
  destruct (perform_save_cases now entry c)
    as [->|[(l1 & d & l2 & -> & _ & _ & ->)|[_ ->]]]; [done| |].
  - apply Forall_app in H as [H1 H2]. apply Forall_cons in H2 as [Hd H2].
    apply Forall_app. split; [done|]. apply Forall_cons. split; [|done].
    by apply record_invariant_saved.
  - apply Forall_app. split; [done|]. apply Forall_cons. split; [|done].
    by apply record_invariant_inserted.
Qed.

(** In list order, an unordered bulk of saves is one save after the
    other, a rejected one being skipped. *)
Lemma saveMany_fold entries (c : Collection) :
  (saveMany entries c).1
  = foldl (λ acc p, perform (CallSave p.1 p.2) acc) c entries.
Proof.
  unfold saveMany. revert c.
  induction entries as [|[now entry] rest IH]; intros c; [done|].
  cbn [map bulkWrite foldl perform fst snd].
  rewrite <- IH. fold (save now entry c).
  destruct (save now entry c); [done|].
  by destruct (bulkWrite false _ c).
Qed.

End InvariantFacts.

(** C7, as stated, fails: [save] stores the watermarks of a new entry as
    given.  The empty collection satisfies the invariants; after saving
    [backwardsE2], whose [firstSeen] is 5 and [lastSeen] 3, the stored
    record has [firstSeen > lastSeen]. *)
Lemma save_stores_backwards_watermarks :
  ¬ (∀ k (c : Collection),
       Forall record_invariant c → Forall record_invariant (perform k c)).
Proof.
  intros H. specialize (H (CallSave 0 backwardsE2) [] (List.Forall_nil _)).
  apply Forall_inv in H. destruct H as [Hw _].
  vm_compute in Hw. by apply Hw.
Qed.

(** C7, amended.  [getIndexJob] and [setIndexJobFinished] preserve the
    record invariants on every stored entry, and so do [save] and
    [saveMany] when each saved entry has [firstSeen <= lastSeen]: if
    every stored entry has its watermarks in order, its lease fields both
    present or both absent, and no lease without the marker before the
    call, the same holds after it. *)
Theorem calls_preserve_record_invariant k (c : Collection) :
  saves_ordered k →
  Forall record_invariant c →
  Forall record_invariant (perform k c).
Proof.
  destruct k as [now entry|entries|jobId timestamp count timeout|jobId];
    intros Hk H.
  - by apply record_invariant_perform_save.
  - cbn [perform]. rewrite saveMany_fold. revert c H.
    induction Hk as [|[now entry] rest Hle _ IH]; intros c H; [done|].
    cbn [foldl fst snd] in *. apply IH. by apply record_invariant_perform_save.
  - clear Hk. cbn [perform]. rewrite getIndexJob_unfold. cbn [fst].
    induction count as [|count IH]; [by rewrite after_claims_0|].
    rewrite after_claims_S. by apply record_invariant_claim_step.
  - cbn [perform]. rewrite setIndexJobFinished_unfold.
    induction H as [|d c Hd _ IH]; [done|]. cbn [map].
    apply Forall_cons. split; [|exact IH].
    destruct (matches _ d); [by apply record_invariant_released|done].
Qed.

Lemma calls_preserve_record_invariant_witness :
  saves_ordered (CallSave 40 entryE1) ∧
  Forall record_invariant [leasedE1] ∧
  Forall record_invariant (perform (CallSave 40 entryE1) [leasedE1]).
Proof.
  assert (Hk : saves_ordered (CallSave 40 entryE1)) by (simpl; lia).
  assert (H : Forall record_invariant [leasedE1]).
  { apply (bool_decide_unpack _). vm_compute. exact I. }
  split; [exact Hk|]. split; [exact H|].
  exact (calls_preserve_record_invariant (CallSave 40 entryE1) [leasedE1] Hk H).
Defined.

(** * Watermarks *)

Section WatermarkFacts.

Lemma stored_skip i (l1 l2 : Collection) :
  Forall (λ x, x !! "_id" ≠ Some (VStr i)) l1 →
  stored i (l1 ++ l2) = stored i l2.
Proof.
  unfold stored. induction 1 as [|x l1 Hx _ IH]; [done|].
  cbn [app find]. destruct (matches _ x) eqn:Hm; [|done].
  apply matches_FEq in Hm. done.
Qed.

Lemma stored_head i (d : Document) (l : Collection) :
  d !! "_id" = Some (VStr i) → stored i (d :: l) = Some d.
Proof.
  intros H. unfold stored. cbn [find].
  apply (matches_FEq "_id" (VStr i) d) in H. by rewrite H.
Qed.

Lemma stored_None i (c : Collection) :
  stored i c = None ↔ Forall (λ x, x !! "_id" ≠ Some (VStr i)) c.
Proof.
  unfold stored. induction c as [|x c IH]; cbn [find].
  - split; [constructor|done].
  - destruct (matches _ x) eqn:Hm.
    + apply matches_FEq in Hm. split; [done|]. intros H. by inversion H.
    + rewrite IH. split.
      * intros H. constructor; [|done]. intros Hx.
        apply (matches_FEq "_id" (VStr i) x) in Hx. congruence.
      * intros H. by inversion H.
Qed.

(** After an accepted save the record of the entry's id is the write of
    the save on the record found, or on the seed. *)
Lemma stored_after_save now entry (c : Collection) :
  carries_no_lease entry →
  ∃ c', save now entry c = Ok c' ∧
    stored (id entry) c'
    = Some (saved now entry
              (default {[ "_id" := VStr (id entry) ]} (stored (id entry) c))).
Proof.
  intros H. rewrite save_accepted by done. eexists. split; [done|].
  assert (Hno : ∀ l : Collection,
            Forall (λ x, matches (FEq "_id" (VStr (id entry))) x = false) l →
            Forall (λ x, x !! "_id" ≠ Some (VStr (id entry))) l).
  { intros l Hl. eapply Forall_impl; [exact Hl|]. intros x Hx Hid.
    apply matches_FEq in Hid. congruence. }
  destruct (update_first _ _ c) as [c'|] eqn:Hu.
  - apply update_first_Some in Hu as (l1 & d & l2 & -> & Hd & Hl1 & ->).
    apply Hno in Hl1. apply matches_FEq in Hd.
    rewrite !stored_skip by done.
    rewrite (stored_head _ d) by done.
    rewrite stored_head by apply saved_id. done.
  - apply update_first_None in Hu. apply Hno in Hu.
    rewrite stored_skip by done.
    rewrite stored_head by apply saved_id.
    apply stored_None in Hu. by rewrite Hu.
Qed.

Lemma is_minimum_foldl a xs :
  is_minimum (foldl (λ acc x, Z.min x acc) a xs) (a :: xs).
Proof.
  revert a. induction xs as [|x xs IH]; intros a.
  - split; [by left|]. by repeat constructor.
  - cbn [foldl]. destruct (IH (Z.min x a)) as [Hin Hall]. split.
    + apply elem_of_cons in Hin as [->|Hin].
      * destruct (Z.min_spec x a) as [[_ ->]|[_ ->]];
          [right; left|left]; done.
      * by right; right.
    + apply Forall_cons in Hall as [Hm Hall].
      repeat (apply Forall_cons; split); [lia|lia|done].
Qed.

Lemma is_maximum_foldl a xs :
  is_maximum (foldl (λ acc x, Z.max x acc) a xs) (a :: xs).
Proof.
  revert a. induction xs as [|x xs IH]; intros a.
  - split; [by left|]. by repeat constructor.
  - cbn [foldl]. destruct (IH (Z.max x a)) as [Hin Hall]. split.
    + apply elem_of_cons in Hin as [->|Hin].
      * destruct (Z.max_spec x a) as [[_ ->]|[_ ->]];
          [left|right; left]; done.
      * by right; right.
    + apply Forall_cons in Hall as [Hm Hall].
      repeat (apply Forall_cons; split); [lia|lia|done].
Qed.

Lemma is_minimum_unique m m' xs xs' :
  xs ≡ₚ xs' → is_minimum m xs → is_minimum m' xs' → m = m'.
Proof.
  intros Hp [Hin Hall] [Hin' Hall'].
  rewrite Forall_forall in Hall, Hall'.
  rewrite Hp in Hin. rewrite <- Hp in Hin'.
  pose proof (Hall _ Hin'). pose proof (Hall' _ Hin). lia.
Qed.

Lemma is_maximum_unique m m' xs xs' :
  xs ≡ₚ xs' → is_maximum m xs → is_maximum m' xs' → m = m'.
Proof.
  intros Hp [Hin Hall] [Hin' Hall'].
  rewrite Forall_forall in Hall, Hall'.
  rewrite Hp in Hin. rewrite <- Hp in Hin'.
  pose proof (Hall _ Hin'). pose proof (Hall' _ Hin). lia.
Qed.

(** Saves into an existing record fold [min] and [max] over it. *)
Lemma save_all_merges i saves (c : Collection) (d0 : Document) f0 l0 :
  Forall (λ p : Z * Entry, id p.2 = i ∧ carries_no_lease p.2) saves →
  stored i c = Some d0 →
  d0 !! "firstSeen" = Some (VNum f0) →
  d0 !! "lastSeen" = Some (VNum l0) →
  ∃ c' d, save_all saves c = Ok c' ∧ stored i c' = Some d ∧
    d !! "firstSeen"
    = Some (VNum (foldl (λ acc x, Z.min x acc) f0 (map (λ p, firstSeen p.2) saves))) ∧
    d !! "lastSeen"
    = Some (VNum (foldl (λ acc x, Z.max x acc) l0 (map (λ p, lastSeen p.2) saves))).
Proof.
  intros Hall. revert c d0 f0 l0.
  induction Hall as [|[now entry] rest [Hid Hfree] _ IH];
    intros c d0 f0 l0 Hst Hf Hl.
  - exists c, d0. by repeat split.
  - cbn [fst snd] in *. subst i.
    destruct (stored_after_save now entry c Hfree) as (c1 & Hsave & Hst1).
    rewrite Hst in Hst1. cbn [from_option Datatypes.id] in Hst1.
    destruct (IH c1 _ (Z.min (firstSeen entry) f0) (Z.max (lastSeen entry) l0) Hst1)
      as (c' & d & Hall' & Hst' & Hf' & Hl').
    { by rewrite saved_firstSeen, Hf, value_min_num. }
    { by rewrite saved_lastSeen, Hl, value_max_num. }
    exists c', d. cbn [save_all map foldl fst snd]. rewrite Hsave. done.
Qed.

(** Saves of an id that has no record yet: the record exists afterwards,
    with the least [firstSeen] and the greatest [lastSeen] supplied. *)
Lemma save_all_watermarks i saves (c : Collection) :
  saves ≠ [] →
  Forall (λ p : Z * Entry, id p.2 = i ∧ carries_no_lease p.2) saves →
  stored i c = None →
  ∃ c' d f l, save_all saves c = Ok c' ∧ stored i c' = Some d ∧
    d !! "firstSeen" = Some (VNum f) ∧ d !! "lastSeen" = Some (VNum l) ∧
    is_minimum f (map (λ p, firstSeen p.2) saves) ∧
    is_maximum l (map (λ p, lastSeen p.2) saves).
Proof.
  intros Hne Hall Hst. destruct saves as [|[now entry] rest]; [done|].
  apply Forall_cons in Hall as [[Hid Hfree] Hall]. cbn [fst snd] in *. subst i.
  destruct (stored_after_save now entry c Hfree) as (c1 & Hsave & Hst1).
  rewrite Hst in Hst1. cbn [from_option Datatypes.id] in Hst1.
  destruct (save_all_merges (id entry) rest c1 _ (firstSeen entry) (lastSeen entry)
              Hall Hst1) as (c' & d & Hall' & Hst' & Hf' & Hl').
  { rewrite saved_firstSeen. by rewrite lookup_singleton_ne. }
  { rewrite saved_lastSeen. by rewrite lookup_singleton_ne. }
  exists c', d. eexists _, _. cbn [save_all]. rewrite Hsave.
  repeat split; try done; cbn [map snd].
  - apply is_minimum_foldl.
  - apply is_minimum_foldl.
  - apply is_maximum_foldl.
  - apply is_maximum_foldl.
Qed.

End WatermarkFacts.

(** X24.  Take an id that has no record yet and any non-empty sequence of
    saves of entries with that id, each accepted by the store (no lease
    field on the saved entry).  Every save succeeds, and afterwards the
    record of the id has as [firstSeen] the least of the [firstSeen]
    values supplied and as [lastSeen] the greatest of the [lastSeen]
    values supplied; the same saves applied in any other order leave the
    same two watermarks. *)
Theorem watermarks_converge i (saves : list (Z * Entry)) (c : Collection) :
  saves ≠ [] →
  Forall (λ p : Z * Entry, id p.2 = i ∧ carries_no_lease p.2) saves →
  stored i c = None →
  ∃ c' d f l,
    save_all saves c = Ok c' ∧ stored i c' = Some d ∧
    d !! "firstSeen" = Some (VNum f) ∧
    d !! "lastSeen" = Some (VNum l) ∧
    is_minimum f (map (λ p, firstSeen p.2) saves) ∧
    is_maximum l (map (λ p, lastSeen p.2) saves) ∧
    ∀ saves', saves' ≡ₚ saves →
      ∃ c'' d', save_all saves' c = Ok c'' ∧ stored i c'' = Some d' ∧
        d' !! "firstSeen" = Some (VNum f) ∧
        d' !! "lastSeen" = Some (VNum l).
Proof.
  intros Hne Hall Hst.
  destruct (save_all_watermarks i saves c Hne Hall Hst)
    as (c' & d & f & l & Hsave & Hd & Hf & Hl & Hmin & Hmax).
  exists c', d, f, l. split_and!; try done.
  intros saves' Hp.
  assert (Hne' : saves' ≠ []).
  { intros ->. apply Permutation_nil_l in Hp. done. }
  assert (Hall' : Forall (λ p : Z * Entry, id p.2 = i ∧ carries_no_lease p.2) saves')
    by (by rewrite Hp).
  destruct (save_all_watermarks i saves' c Hne' Hall' Hst)
    as (c'' & d' & f' & l' & Hsave' & Hd' & Hf' & Hl' & Hmin' & Hmax').
  exists c'', d'.
  assert (f' = f) as ->.
  { eapply is_minimum_unique; [|exact Hmin'|exact Hmin]. by rewrite Hp. }
  assert (l' = l) as ->.
  { eapply is_maximum_unique; [|exact Hmax'|exact Hmax]. by rewrite Hp. }
  done.
Qed.

(** * Leases under other calls *)

Section LeaseFacts.

Lemma unique_ids_inj (c : Collection) (x y : Document) :
  unique_ids c → x ∈ c → y ∈ c → x !! "_id" = y !! "_id" → x = y.
Proof.
  unfold unique_ids. induction c as [|d c IH]; intros Hnd Hx Hy Heq.
  - by apply elem_of_nil in Hx.
  - cbn [map] in Hnd. apply NoDup_cons in Hnd as [Hd Hnd].
    assert (Hin : ∀ z : Document, z ∈ c → d !! "_id" ≠ z !! "_id").
    { intros z Hz Hdz. apply Hd. rewrite Hdz.
      apply list_elem_of_fmap. by exists z. }
    apply elem_of_cons in Hx as [->|Hx]; apply elem_of_cons in Hy as [->|Hy].
    + done.
    + by destruct (Hin y Hy).
    + by destruct (Hin x Hx).
    + by apply IH.
Qed.

Lemma claim_step_ids jobId timestamp timeout (c : Collection) :
  map (λ d : Document, d !! "_id") (claim_step jobId timestamp timeout c)
  = map (λ d : Document, d !! "_id") c.
Proof.
  destruct (claim_step_cases jobId timestamp timeout c)
    as [[_ ->]|(l1 & d & l2 & -> & _ & _ & ->)]; [done|].
  rewrite !map_app. cbn [map]. by rewrite claimed_other.
Qed.

Lemma after_claims_ids k jobId timestamp timeout (c : Collection) :
  map (λ d : Document, d !! "_id") (after_claims k jobId timestamp timeout c)
  = map (λ d : Document, d !! "_id") c.
Proof.
  induction k as [|k IH]; [done|].
  by rewrite after_claims_S, claim_step_ids.
Qed.

Lemma released_ids jobId (c c' : Collection) :
  setIndexJobFinished jobId c = Ok c' →
  map (λ d : Document, d !! "_id") c' = map (λ d : Document, d !! "_id") c.
Proof.
  rewrite setIndexJobFinished_unfold. intros [= <-].
  rewrite map_map. apply map_ext. intros d.
  case_bool_decide; [|done].
  rewrite lookup_released. case_decide as Hlf; [|done].
  apply elem_of_lease_fields in Hlf as [?|[?|?]]; discriminate.
Qed.

Lemma perform_save_unique_ids now entry (c : Collection) :
  unique_ids c → unique_ids (perform (CallSave now entry) c).
Proof.
  unfold unique_ids. intros H.
  destruct (perform_save_cases now entry c)
    as [->|[(l1 & d & l2 & -> & Hd & _ & ->)|[Hno ->]]]; [done| |].
  - rewrite map_app in *. cbn [map] in *. by rewrite saved_id, <- Hd.
  - rewrite map_app. cbn [map]. rewrite saved_id.
    apply NoDup_app. split; [done|]. split; [|apply NoDup_singleton].
    intros x Hx ->%list_elem_of_singleton.
    apply list_elem_of_fmap in Hx as (z & Hz & Hin).
    rewrite Forall_forall in Hno. by destruct (Hno z Hin).
Qed.

(** A document not eligible for a claim stays where it is. *)
Lemma claim_step_keeps jobId timestamp timeout (c : Collection) (e : Document) :
  eligible timestamp e = false → e ∈ c → e ∈ claim_step jobId timestamp timeout c.
Proof.
  intros Hel He.
  destruct (claim_step_cases jobId timestamp timeout c)
    as [[_ ->]|(l1 & d & l2 & -> & Hd & _ & ->)]; [done|].
  rewrite elem_of_app, elem_of_cons in He. rewrite elem_of_app, elem_of_cons.
  destruct He as [?|[->|?]]; auto. congruence.
Qed.

Lemma after_claims_keeps k jobId timestamp timeout (c : Collection) (e : Document) :
  eligible timestamp e = false → e ∈ c →
  e ∈ after_claims k jobId timestamp timeout c.
Proof.
  intros Hel He. induction k as [|k IH]; [done|].
  rewrite after_claims_S. by apply claim_step_keeps.
Qed.

(** A save of another id leaves the document where it is. *)
Lemma perform_save_keeps now entry (c : Collection) (e : Document) :
  Some (VStr (id entry)) ≠ e !! "_id" → e ∈ c →
  e ∈ perform (CallSave now entry) c.
Proof.
  intros Hid He.
  destruct (perform_save_cases now entry c)
    as [->|[(l1 & d & l2 & -> & Hd & _ & ->)|[_ ->]]]; [done| |].
  - rewrite elem_of_app, elem_of_cons in He. rewrite elem_of_app, elem_of_cons.
    destruct He as [?|[->|?]]; auto. congruence.
  - apply elem_of_app. by left.
Qed.

(** A lease that has not run out makes its document ineligible. *)
Lemma leased_not_eligible timestamp deadline (e : Document) :
  is_Some (e !! "indexJob") →
  e !! "indexJobTimeout" = Some (VNum deadline) →
  timestamp < deadline →
  eligible timestamp e = false.
Proof.
  intros [j Hj] Ht Hlt. apply not_true_is_false. intros Hel.
  apply eligible_spec in Hel as [_ [H|H]]; [congruence|].
  unfold lease_expired in H. rewrite Ht in H. lia.
Qed.

(** One bystander call: the leased document is still there, no entry
    returned has its id, and ids are still unique. *)
Lemma bystander_step jobId deadline (e : Document) k (c : Collection) :
  unique_ids c → e ∈ c →
  tagged jobId e → e !! "indexJobTimeout" = Some (VNum deadline) →
  bystander jobId deadline (e !! "_id") k →
  unique_ids (perform k c) ∧ e ∈ perform k c ∧
  ∀ e', e' ∈ returned k c → e' !! "_id" ≠ e !! "_id".
Proof.
  intros Hu He Htag Hto Hk.
  destruct k as [now entry|entries|jobId' timestamp count timeout|jobId'];
    cbn [bystander] in Hk.
  - split; [by apply perform_save_unique_ids|].
    split; [by apply perform_save_keeps|]. intros e' He'. by apply elem_of_nil in He'.
  - cbn [perform returned]. rewrite saveMany_fold.
    assert (H : unique_ids (foldl (λ acc p, perform (CallSave p.1 p.2) acc) c entries)
                ∧ e ∈ foldl (λ acc p, perform (CallSave p.1 p.2) acc) c entries).
    { revert c Hu He.
      induction Hk as [|[now entry] rest Hid _ IH]; intros c Hu He; [done|].
      cbn [foldl fst snd] in *. apply IH.
      - by apply perform_save_unique_ids.
      - by apply perform_save_keeps. }
    destruct H as [H1 H2]. split; [done|]. split; [done|].
    intros e' He'. by apply elem_of_nil in He'.
  - destruct Hk as [Hne Hlt].
    assert (Hel : eligible timestamp e = false).
    { eapply leased_not_eligible; [by eexists|done..]. }
    cbn [perform returned]. rewrite getIndexJob_unfold. cbn [fst snd].
    assert (Hu' : unique_ids (after_claims count jobId' timestamp timeout c)).
    { unfold unique_ids. by rewrite after_claims_ids. }
    assert (He' : e ∈ after_claims count jobId' timestamp timeout c)
      by (by apply after_claims_keeps).
    split; [done|]. split; [done|].
    intros e' [Hin Hm]%elem_of_loadManyByFilter Heq.
    apply matches_FEq in Hm.
    assert (e' = e) as -> by (by eapply unique_ids_inj).
    unfold tagged in Htag. congruence.
  - cbn [perform returned].
    pose proof (released_ids jobId' c) as Hids.
    rewrite setIndexJobFinished_unfold in *.
    split; [|split].
    + unfold unique_ids. by rewrite (Hids _ eq_refl).
    + apply list_elem_of_fmap. exists e. split; [|done].
      destruct (matches (FEq "indexJob" (VStr jobId')) e) eqn:Hm; [|done].
      apply matches_FEq in Hm. unfold tagged in Htag. congruence.
    + intros e' He'. by apply elem_of_nil in He'.
Qed.

(** Any number of bystander calls. *)
Lemma bystander_history jobId deadline (e : Document) ks (c : Collection) :
  unique_ids c → e ∈ c →
  tagged jobId e → e !! "indexJobTimeout" = Some (VNum deadline) →
  Forall (bystander jobId deadline (e !! "_id")) ks →
  e ∈ (history ks c).1 ∧
  ∀ e', e' ∈ (history ks c).2 → e' !! "_id" ≠ e !! "_id".
Proof.
  intros Hu He Htag Hto Hks. revert c Hu He.
  induction Hks as [|k ks Hk _ IH]; intros c Hu He.
  - split; [done|]. intros e' He'. by apply elem_of_nil in He'.
  - destruct (bystander_step jobId deadline e k c Hu He Htag Hto Hk)
      as (Hu' & He' & Hret).
    destruct (IH (perform k c) Hu' He') as [Hin Hout].
    cbn [history]. destruct (history ks (perform k c)) as [c' out].
    cbn [fst snd] in *. split; [done|].
    intros e' [H|H]%elem_of_app; auto.
Qed.

End LeaseFacts.

(** With a positive lease a claimed document is no longer eligible, so
    a bulk with as many updates as there are eligible documents claims
    every one of them. *)
Lemma after_claims_all jobId timestamp timeout k (c : Collection) (d : Document) :
  0 < timeout →
  (length (List.filter (eligible timestamp) c) ≤ k)%nat →
  d ∈ c → eligible timestamp d = true →
  claimed jobId timestamp timeout d ∈ after_claims k jobId timestamp timeout c.
Proof.
  intros Hpos. unfold after_claims. rewrite after_claims_iter. cbn [fst].
  revert c. induction k as [|k IH]; intros c Hlen Hd Hel.
  - apply list_elem_of_In in Hd.
    pose proof (proj2 (filter_In (eligible timestamp) d c) (conj Hd Hel)) as Hin.
    destruct (List.filter (eligible timestamp) c); [done|simpl in Hlen; lia].
  - rewrite Nat.iter_succ_r.
    destruct (claim_step_cases jobId timestamp timeout c)
      as [[Hnone _]|(l1 & d0 & l2 & -> & Hd0 & Hl1 & ->)].
    { rewrite Forall_forall in Hnone. rewrite (Hnone d Hd) in Hel. done. }
    assert (Hgone : eligible timestamp (claimed jobId timestamp timeout d0) = false).
    { eapply leased_not_eligible;
        [by rewrite claimed_tagged|apply claimed_timeout|lia]. }
    assert (Hkeep : ∀ x : Document,
              x ∈ l1 ++ claimed jobId timestamp timeout d0 :: l2 →
              eligible timestamp x = false →
              x ∈ Nat.iter k (claim_step jobId timestamp timeout)
                    (l1 ++ claimed jobId timestamp timeout d0 :: l2)).
    { intros x Hx Hxel.
      pose proof (after_claims_keeps k jobId timestamp timeout _ x Hxel Hx) as H.
      unfold after_claims in H. by rewrite after_claims_iter in H. }
    rewrite elem_of_app, elem_of_cons in Hd. destruct Hd as [Hd|[->|Hd]].
    + rewrite Forall_forall in Hl1. rewrite (Hl1 d Hd) in Hel. done.
    + apply Hkeep; [|done]. rewrite elem_of_app, elem_of_cons. auto.
    + apply IH; [| |done].
      * rewrite List.filter_app, length_app in *. cbn [List.filter] in *.
        rewrite Hd0 in Hlen. rewrite Hgone. cbn [length] in *. lia.
      * rewrite elem_of_app, elem_of_cons. auto.
Qed.

(** C2.  Let [getIndexJob], called at [timestamp] with lease duration
    [timeout] and a fresh token, return the entry [e].  Then through any
    history of later calls that neither save [e]'s id nor release the
    job, and whose claims are made before [timestamp + timeout] (under
    other tokens), no claim returns an entry with [e]'s id and [e] stays
    stored as it is.  From [timestamp + timeout] on, [e] satisfies the
    eligibility predicate of a claim, and a claim made then with a
    positive lease and enough updates for the collection returns it. *)
Theorem lease_lasts_until_timeout jobId timestamp count timeout
    (c : Collection) (e : Document) (ks : list Call) :
  unique_ids c →
  job_unused jobId c →
  e ∈ returned (CallGetIndexJob jobId timestamp count timeout) c →
  Forall (bystander jobId (timestamp + timeout) (e !! "_id")) ks →
  (∀ e', e' ∈ (history ks
                 (perform (CallGetIndexJob jobId timestamp count timeout) c)).2 →
         e' !! "_id" ≠ e !! "_id") ∧
  e ∈ (history ks (perform (CallGetIndexJob jobId timestamp count timeout) c)).1 ∧
  ∀ later, timestamp + timeout ≤ later →
    eligible later e = true ∧
    ∀ jobId' count' timeout',
      0 < timeout' →
      (length (history ks (perform (CallGetIndexJob jobId timestamp count timeout) c)).1
       ≤ count')%nat →
      claimed jobId' later timeout' e
      ∈ returned (CallGetIndexJob jobId' later count' timeout')
          (history ks (perform (CallGetIndexJob jobId timestamp count timeout) c)).1.
Proof.
  intros Hu Hunused He Hks. cbn [returned perform] in *.
  rewrite getIndexJob_unfold in *. cbn [fst snd] in *.
  apply elem_of_loadManyByFilter in He as [He Htag]. apply matches_FEq in Htag.
  destruct (after_claims_origin jobId timestamp timeout count c e
              Hunused He Htag) as (k & d & _ & _ & Hel & Heq & _).
  assert (Hto : e !! "indexJobTimeout" = Some (VNum (timestamp + timeout)))
    by (subst e; apply claimed_timeout).
  assert (Hu' : unique_ids (after_claims count jobId timestamp timeout c)).
  { unfold unique_ids. by rewrite after_claims_ids. }
  destruct (bystander_history jobId (timestamp + timeout) e ks _ Hu' He Htag Hto Hks)
    as [Hin Hout].
  split; [done|]. split; [done|].
  intros later Hlater.
  assert (Hlate : eligible later e = true).
  { apply eligible_spec. split.
    - apply eligible_spec in Hel as [Hr _]. subst e. by rewrite claimed_other.
    - right. unfold lease_expired. by rewrite Hto. }
  split; [done|].
  intros jobId' count' timeout' Hpos Hlen.
  rewrite getIndexJob_unfold. cbn [snd].
  apply elem_of_loadManyByFilter. split; [|apply matches_FEq, claimed_tagged].
  apply after_claims_all; try done.
  etrans; [|exact Hlen]. apply List.filter_length_le.
Qed.

Lemma lease_lasts_until_timeout_witness :
  let ks := [CallGetIndexJob "J2" 2 5 30; CallSave 3 entryE2;
             CallSetIndexJobFinished "J2"; CallGetIndexJob "J3" 30 5 30] in
  unique_ids [pendingE1] ∧
  job_unused "J1" [pendingE1] ∧
  leasedE1 ∈ returned (CallGetIndexJob "J1" 1 5 30) [pendingE1] ∧
  Forall (bystander "J1" (1 + 30) (leasedE1 !! "_id")) ks ∧
  leasedE1 ∈ (history ks (perform (CallGetIndexJob "J1" 1 5 30) [pendingE1])).1 ∧
  eligible 31 leasedE1 = true.
Proof.
  intros ks.
  assert (H1 : unique_ids [pendingE1]) by by_evaluation.
  assert (H2 : job_unused "J1" [pendingE1]) by by_evaluation.
  assert (H3 : leasedE1 ∈ returned (CallGetIndexJob "J1" 1 5 30) [pendingE1])
    by by_evaluation.
  assert (H4 : Forall (bystander "J1" (1 + 30) (leasedE1 !! "_id")) ks).
  { repeat constructor; vm_compute; congruence. }
  destruct (lease_lasts_until_timeout "J1" 1 5 30 [pendingE1] leasedE1 ks
              H1 H2 H3 H4) as (_ & Hin & Hel).
  split; [exact H1|]. split; [exact H2|]. split; [exact H3|].
  split; [exact H4|]. split; [exact Hin|]. apply Hel. lia.
Defined.

(** * Two claims at once *)

Section ConcurrentFacts.

(** Run on its own, a call of the step model is [getIndexJob]. *)
Lemma interleave_alone a b pb (c : Collection) :
  interleave (replicate (S (cc_count a)) true) a b (start a) pb c
  = ({| pending := 0;
        answer := Some (Ok (returned (CallGetIndexJob (cc_job a) (cc_timestamp a)
                                        (cc_count a) (cc_timeout a)) c)) |},
     pb,
     perform (CallGetIndexJob (cc_job a) (cc_timestamp a)
                (cc_count a) (cc_timeout a)) c).
Proof.
  cbn [returned perform]. rewrite getIndexJob_unfold. cbn [fst snd].
  unfold start, after_claims. rewrite after_claims_iter. cbn [fst].
  generalize (cc_count a) as n. intros n. revert c.
  induction n as [|n IH]; intros c; [done|].
  rewrite Nat.iter_succ_r. rewrite <- IH.
  cbn [replicate interleave advance answer pending].
  by rewrite updateOne_claim.
Qed.

Variables (k other : ClaimCall).
Hypothesis different_jobs : cc_job k ≠ cc_job other.
Hypothesis other_lease_live :
  cc_timestamp k < cc_timestamp other + cc_timeout other.

(** What one store step of [k] does to the collection. *)
Lemma advance_cases p (c : Collection) :
  ∃ p' c', advance k p c = (p', c') ∧
    ((c' = c ∧ answer p' = answer p) ∨
     (c' = c ∧ answer p = None ∧
      answer p' = Some (Ok (loadManyByFilter (FEq "indexJob" (VStr (cc_job k))) c))) ∨
     (c' = claim_step (cc_job k) (cc_timestamp k) (cc_timeout k) c ∧
      answer p = None ∧ answer p' = None)).
Proof.
  unfold advance. destruct (answer p) as [r|] eqn:Hr.
  - eexists _, _. split; [done|]. left. by rewrite Hr.
  - destruct (pending p) as [|m].
    + eexists _, _. split; [done|]. right; left. done.
    + rewrite updateOne_claim. eexists _, _. split; [done|]. right; right. done.
Qed.

Lemma claim_step_lease_of (c : Collection) :
  lease_of k c →
  lease_of k (claim_step (cc_job k) (cc_timestamp k) (cc_timeout k) c).
Proof.
  intros H d Hd Htag.
  destruct (claim_step_cases (cc_job k) (cc_timestamp k) (cc_timeout k) c)
    as [[_ Heq]|(l1 & d0 & l2 & Hc & _ & _ & Heq)]; rewrite Heq in Hd.
  - by apply H.
  - rewrite elem_of_app, elem_of_cons in Hd.
    destruct Hd as [Hd|[->|Hd]]; [|apply claimed_timeout|];
      apply H; auto; rewrite Hc, elem_of_app, elem_of_cons; auto.
Qed.

Lemma claim_step_lease_of_other (c : Collection) :
  lease_of other c →
  lease_of other (claim_step (cc_job k) (cc_timestamp k) (cc_timeout k) c).
Proof.
  intros H d Hd Htag.
  destruct (claim_step_cases (cc_job k) (cc_timestamp k) (cc_timeout k) c)
    as [[_ Heq]|(l1 & d0 & l2 & Hc & _ & _ & Heq)]; rewrite Heq in Hd.
  - by apply H.
  - rewrite elem_of_app, elem_of_cons in Hd.
    destruct Hd as [Hd|[->|Hd]].
    + apply H; auto. rewrite Hc, elem_of_app; auto.
    + pose proof (claimed_tagged (cc_job k) (cc_timestamp k) (cc_timeout k) d0) as Ht.
      unfold tagged in *. congruence.
    + apply H; auto. rewrite Hc, elem_of_app, elem_of_cons; auto.
Qed.

(** An entry [k] has returned stays under the token of [k] when [k]
    claims again. *)
Lemma claim_step_answered p (c : Collection) :
  answered k p c →
  answered k p (claim_step (cc_job k) (cc_timestamp k) (cc_timeout k) c).
Proof.
  intros H r Hr x Hx. destruct (H r Hr x Hx) as (d & Hd & Hid & Htag).
  destruct (claim_step_cases (cc_job k) (cc_timestamp k) (cc_timeout k) c)
    as [[_ ->]|(l1 & d0 & l2 & -> & _ & _ & ->)]; [by exists d|].
  rewrite elem_of_app, elem_of_cons in Hd.
  destruct Hd as [Hd|[->|Hd]].
  - exists d. rewrite elem_of_app. auto.
  - exists (claimed (cc_job k) (cc_timestamp k) (cc_timeout k) d0).
    split; [rewrite elem_of_app, elem_of_cons; auto|].
    split; [by rewrite claimed_other|apply claimed_tagged].
  - exists d. rewrite elem_of_app, elem_of_cons. auto.
Qed.

(** An entry the other call has returned is out of reach of [k]: its
    lease is live at the timestamp of [k]. *)
Lemma claim_step_answered_other q (c : Collection) :
  lease_of other c →
  answered other q c →
  answered other q (claim_step (cc_job k) (cc_timestamp k) (cc_timeout k) c).
Proof.
  intros Hlease H r Hr x Hx. destruct (H r Hr x Hx) as (d & Hd & Hid & Htag).
  exists d. split; [|done].
  apply claim_step_keeps; [|done].
  eapply leased_not_eligible; [by eexists|by apply Hlease|done].
Qed.

(** One step of [k] keeps what both calls rely on. *)
Lemma advance_invariant p q (c : Collection) p' c' :
  advance k p c = (p', c') →
  lease_of k c → lease_of other c → answered k p c → answered other q c →
  map (λ d : Document, d !! "_id") c' = map (λ d : Document, d !! "_id") c ∧
  lease_of k c' ∧ lease_of other c' ∧ answered k p' c' ∧ answered other q c'.
Proof.
  intros Hadv Hk Ho Hp Hq.
  destruct (advance_cases p c) as (p1 & c1 & Heq & Hcases).
  rewrite Hadv in Heq. injection Heq as <- <-.
  destruct Hcases as [[-> Ha]|[(-> & Hnone & Ha)|(-> & Hnone & Ha)]].
  - repeat split; try done. intros r Hr. apply Hp. congruence.
  - repeat split; try done. intros r Hr x Hx.
    rewrite Ha in Hr. injection Hr as <-.
    apply elem_of_loadManyByFilter in Hx as [Hin Hm].
    apply matches_FEq in Hm. by exists x.
  - split; [apply claim_step_ids|].
    split; [by apply claim_step_lease_of|].
    split; [by apply claim_step_lease_of_other|].
    split; [|by apply claim_step_answered_other].
    intros r Hr. congruence.
Qed.

End ConcurrentFacts.

Lemma job_unused_lease_of k (c : Collection) :
  job_unused (cc_job k) c → lease_of k c.
Proof.
  intros H d Hd Htag. unfold job_unused in H. rewrite Forall_forall in H.
  by destruct (H d Hd).
Qed.

(** Under any schedule, two claims each of whose leases is live at the
    other's timestamp never hold the same entry. *)
Lemma interleave_invariant a b schedule pa pb (c : Collection) pa' pb' c' :
  cc_job a ≠ cc_job b →
  cc_timestamp b < cc_timestamp a + cc_timeout a →
  cc_timestamp a < cc_timestamp b + cc_timeout b →
  interleave schedule a b pa pb c = (pa', pb', c') →
  unique_ids c →
  lease_of a c → lease_of b c → answered a pa c → answered b pb c →
  unique_ids c' ∧ answered a pa' c' ∧ answered b pb' c'.
Proof.
  intros Hne Hab Hba. revert pa pb c.
  induction schedule as [|turn rest IH]; intros pa pb c Hrun Hu Ha Hb Hpa Hpb.
  - cbn [interleave] in Hrun. injection Hrun as <- <- <-. done.
  - cbn [interleave] in Hrun. destruct turn.
    + destruct (advance a pa c) as [pa1 c1] eqn:Hadv.
      destruct (advance_invariant a b Hne Hba pa pb c pa1 c1 Hadv Ha Hb Hpa Hpb)
        as (Hids & Ha1 & Hb1 & Hpa1 & Hpb1).
      apply (IH pa1 pb c1); auto. unfold unique_ids. by rewrite Hids.
    + destruct (advance b pb c) as [pb1 c1] eqn:Hadv.
      destruct (advance_invariant b a (not_eq_sym Hne) Hab pb pa c pb1 c1
                  Hadv Hb Ha Hpb Hpa)
        as (Hids & Hb1 & Ha1 & Hpb1 & Hpa1).
      apply (IH pa pb1 c1); auto. unfold unique_ids. by rewrite Hids.
Qed.

Lemma advance_remaining k p (c : Collection) :
  unfailed p →
  unfailed (advance k p c).1 ∧
  remaining (advance k p c).1 = pred (remaining p).
Proof.
  unfold unfailed, remaining, advance.
  destruct (answer p) as [[r|e]|] eqn:Hp; cbn [fst]; rewrite ?Hp; try done.
  destruct (pending p) as [|m]; [done|].
  by rewrite updateOne_claim.
Qed.

(** Neither call throws, and each turn takes one step off the call it is
    given to. *)
Lemma interleave_remaining a b schedule pa pb (c : Collection) :
  unfailed pa → unfailed pb →
  unfailed (interleave schedule a b pa pb c).1.1 ∧
  unfailed (interleave schedule a b pa pb c).1.2 ∧
  remaining (interleave schedule a b pa pb c).1.1
  = (remaining pa - turns true schedule)%nat ∧
  remaining (interleave schedule a b pa pb c).1.2
  = (remaining pb - turns false schedule)%nat.
Proof.
  revert pa pb c. induction schedule as [|turn rest IH]; intros pa pb c Ha Hb.
  - cbn. repeat split; try done; lia.
  - cbn [interleave]. destruct turn.
    + destruct (advance_remaining a pa c Ha) as [Ha' Hr].
      destruct (advance a pa c) as [pa1 c1]. cbn [fst] in *.
      destruct (IH pa1 pb c1 Ha' Hb) as (? & ? & -> & ->).
      unfold turns in *. cbn [List.filter Bool.eqb length]. rewrite Hr.
      repeat split; try done; lia.
    + destruct (advance_remaining b pb c Hb) as [Hb' Hr].
      destruct (advance b pb c) as [pb1 c1]. cbn [fst] in *.
      destruct (IH pa pb1 c1 Ha Hb') as (? & ? & -> & ->).
      unfold turns in *. cbn [List.filter Bool.eqb length]. rewrite Hr.
      repeat split; try done; lia.
Qed.

(** A schedule that gives each call a turn for each of its updates and
    one for its read-back lets both calls return. *)
Lemma interleave_completes a b schedule (c : Collection) :
  (cc_count a < turns true schedule)%nat →
  (cc_count b < turns false schedule)%nat →
  ∃ ra rb,
    answer (interleave schedule a b (start a) (start b) c).1.1 = Some (Ok ra) ∧
    answer (interleave schedule a b (start a) (start b) c).1.2 = Some (Ok rb).
Proof.
  intros Ha Hb.
  destruct (interleave_remaining a b schedule (start a) (start b) c I I)
    as (Hua & Hub & Hra & Hrb).
  unfold remaining, unfailed, start in *. cbn [answer pending] in *.
  destruct (answer (interleave schedule a b _ _ c).1.1) as [[ra|]|];
    [|done|lia].
  destruct (answer (interleave schedule a b _ _ c).1.2) as [[rb|]|];
    [|done|lia].
  by exists ra, rb.
Qed.

(** C9, as stated, fails: a claim judges eligibility by the timestamp it
    read when it started.  [claimA] read the clock at 0, [claimB] at 10,
    both ask for a lease of 10.  The first update of [claimB] takes [E1];
    then [claimA] takes [E2], with a lease that runs to 10, and returns
    it; the second update of [claimB] finds that lease run out at its
    own timestamp 10 and takes [E2] as well.  When both calls have
    returned, [E2] is in both answers, and the lease of [claimB] on it
    runs to 20. *)
Lemma concurrent_claims_overlap :
  ¬ (∀ a b schedule (c : Collection) pa pb c' ra rb,
       unique_ids c →
       cc_job a ≠ cc_job b →
       job_unused (cc_job a) c → job_unused (cc_job b) c →
       interleave schedule a b (start a) (start b) c = (pa, pb, c') →
       answer pa = Some (Ok ra) → answer pb = Some (Ok rb) →
       ∀ x y : Document, x ∈ ra → y ∈ rb → x !! "_id" ≠ y !! "_id").
Proof.
  intros H.
  pose (c := [pendingE1; pendingE2]).
  pose (run := interleave [false; true; true; false; false]
                 claimA claimB (start claimA) (start claimB) c).
  pose (ra := [claimed "JA" 0 10 pendingE2]).
  pose (rb := [claimed "JB" 10 10 pendingE1; claimed "JB" 10 10 pendingE2]).
  assert (Hu : unique_ids c) by by_evaluation.
  assert (Ha : job_unused "JA" c) by by_evaluation.
  assert (Hb : job_unused "JB" c) by by_evaluation.
  assert (Hra : answer run.1.1 = Some (Ok ra)) by (vm_compute; reflexivity).
  assert (Hrb : answer run.1.2 = Some (Ok rb)) by (vm_compute; reflexivity).
  refine (H claimA claimB [false; true; true; false; false] c
            run.1.1 run.1.2 run.2 ra rb Hu _ Ha Hb _ Hra Hrb
            (claimed "JA" 0 10 pendingE2) (claimed "JB" 10 10 pendingE2) _ _ _).
  - discriminate.
  - subst run. by destruct (interleave _ _ _ _ _ _) as [[? ?] ?].
  - by_evaluation.
  - by_evaluation.
  - vm_compute. reflexivity.
Qed.

(** C9, amended.  Take two concurrent claims under distinct fresh tokens,
    each of whose leases is still live at the timestamp of the other
    ([timestamp_b < timestamp_a + timeout_a] and the converse).  However
    the store interleaves their updates and read-backs, once both have
    returned no entry is in both answers. *)
Theorem concurrent_claims_disjoint a b schedule (c : Collection)
    pa pb c' ra rb :
  unique_ids c →
  cc_job a ≠ cc_job b →
  job_unused (cc_job a) c → job_unused (cc_job b) c →
  cc_timestamp b < cc_timestamp a + cc_timeout a →
  cc_timestamp a < cc_timestamp b + cc_timeout b →
  interleave schedule a b (start a) (start b) c = (pa, pb, c') →
  answer pa = Some (Ok ra) → answer pb = Some (Ok rb) →
  ∀ x y : Document, x ∈ ra → y ∈ rb → x !! "_id" ≠ y !! "_id".
Proof.
  intros Hu Hne Ha Hb Hab Hba Hrun Hra Hrb x y Hx Hy Heq.
  destruct (interleave_invariant a b schedule (start a) (start b) c pa pb c'
              Hne Hab Hba Hrun Hu)
    as (Hu' & Hpa & Hpb);
    [by apply job_unused_lease_of|by apply job_unused_lease_of|
     intros r Hr; discriminate Hr|intros r Hr; discriminate Hr|].
  destruct (Hpa ra Hra x Hx) as (dx & Hdx & Hidx & Htx).
  destruct (Hpb rb Hrb y Hy) as (dy & Hdy & Hidy & Hty).
  assert (dx = dy) as -> by (eapply unique_ids_inj; [done..|congruence]).
  unfold tagged in *. congruence.
Qed.

Lemma concurrent_claims_disjoint_witness :
  let c := [pendingE1; pendingE2] in
  let run := interleave [false; true; true; false; true; false]
               claimC claimD (start claimC) (start claimD) c in
  unique_ids c ∧ cc_job claimC ≠ cc_job claimD ∧
  job_unused (cc_job claimC) c ∧ job_unused (cc_job claimD) c ∧
  cc_timestamp claimD < cc_timestamp claimC + cc_timeout claimC ∧
  cc_timestamp claimC < cc_timestamp claimD + cc_timeout claimD ∧
  answer run.1.1 = Some (Ok [claimed "JC" 5 10 pendingE2]) ∧
  answer run.1.2 = Some (Ok [claimed "JD" 5 10 pendingE1]) ∧
  claimed "JC" 5 10 pendingE2 !! "_id" ≠ claimed "JD" 5 10 pendingE1 !! "_id".
Proof.
  intros c run.
  assert (Hu : unique_ids c) by by_evaluation.
  assert (Hne : cc_job claimC ≠ cc_job claimD) by discriminate.
  assert (Ha : job_unused (cc_job claimC) c) by by_evaluation.
  assert (Hb : job_unused (cc_job claimD) c) by by_evaluation.
  assert (Hab : cc_timestamp claimD < cc_timestamp claimC + cc_timeout claimC)
    by (simpl; lia).
  assert (Hba : cc_timestamp claimC < cc_timestamp claimD + cc_timeout claimD)
    by (simpl; lia).
  assert (Hrun : interleave [false; true; true; false; true; false]
                   claimC claimD (start claimC) (start claimD) c
                 = (run.1.1, run.1.2, run.2))
    by (subst run; by destruct (interleave _ _ _ _ _ _) as [[? ?] ?]).
  assert (Hra : answer run.1.1 = Some (Ok [claimed "JC" 5 10 pendingE2]))
    by (vm_compute; reflexivity).
  assert (Hrb : answer run.1.2 = Some (Ok [claimed "JD" 5 10 pendingE1]))
    by (vm_compute; reflexivity).
  split_and!; try assumption.
  apply (concurrent_claims_disjoint claimC claimD _ c _ _ _ _ _
           Hu Hne Ha Hb Hab Hba Hrun Hra Hrb).
  - by left.
  - by left.
Defined.

(** * Saving over a lease *)

(** A save of an entry that names no lease is accepted, whatever marker
    the entry carries; the record it leaves has no lease and the marker
    set to the time of the save, so that no token matches it any more. *)
Lemma save_clears_lease now entry (c : Collection) :
  carries_no_lease entry →
  ∃ c' d, save now entry c = Ok c' ∧ stored (id entry) c' = Some d ∧
    d !! "indexJob" = None ∧
    d !! "indexJobTimeout" = None ∧
    d !! "indexRequiredSince" = Some (VNum now) ∧
    ∀ jobId, ¬ tagged jobId d.
Proof.
  intros H. destruct (stored_after_save now entry c H) as (c' & Hsave & Hst).
  eexists c', _. split; [done|]. split; [done|].
  split; [apply saved_indexJob|]. split; [apply saved_indexJobTimeout|].
  split; [apply saved_indexRequiredSince|].
  intros jobId. unfold tagged. by rewrite saved_indexJob.
Qed.

(** A save of an entry that names a lease is rejected. *)
Lemma save_keeps_lease now entry (c : Collection) :
  ¬ carries_no_lease entry →
  save now entry c = Err ConflictingUpdateOperators ∧
  perform (CallSave now entry) c = c.
Proof.
  intros H. cbn [perform]. by rewrite save_rejected.
Qed.

(** C4 fails on the code for a saved entry that carries lease fields.
    [claimedEntryE1] is [E1] as [getIndexJob] handed it out, lease fields
    included.  Saving it while the lease is stored puts [indexJob] and
    [indexJobTimeout] into [$set] next to the [$unset] of the same two
    fields; the store rejects the update, [save] throws, and the record
    keeps the lease of [J1], which a late release of [J1] then still
    finds. *)
Theorem save_of_claimed_entry_rejected :
  toMongoDocument claimedEntryE1 = leasedE1 ∧
  save 40 claimedEntryE1 [leasedE1] = Err ConflictingUpdateOperators ∧
  perform (CallSave 40 claimedEntryE1) [leasedE1] = [leasedE1] ∧
  tagged "J1" leasedE1 ∧
  leasedE1 !! "indexRequiredSince" = Some (VNum 0) ∧
  setIndexJobFinished "J1" (perform (CallSave 40 claimedEntryE1) [leasedE1])
  = Ok [released leasedE1].
Proof. vm_compute. repeat split; reflexivity. Qed.

Lemma watermarks_converge_witness :
  let saves := [(0, entryE1); (8, entryE1_again)] in
  saves ≠ [] ∧
  Forall (λ p : Z * Entry, id p.2 = "E1"%string ∧ carries_no_lease p.2) saves ∧
  stored "E1" [pendingE2] = None ∧
  ∃ c' d f l,
    save_all saves [pendingE2] = Ok c' ∧ stored "E1" c' = Some d ∧
    d !! "firstSeen" = Some (VNum f) ∧
    d !! "lastSeen" = Some (VNum l) ∧
    is_minimum f (map (λ p, firstSeen p.2) saves) ∧
    is_maximum l (map (λ p, lastSeen p.2) saves).
Proof.
  intros saves.
  assert (H1 : saves ≠ []) by discriminate.
  assert (H2 : Forall (λ p : Z * Entry,
                 id p.2 = "E1"%string ∧ carries_no_lease p.2) saves).
  { repeat constructor. }
  assert (H3 : stored "E1" [pendingE2] = None) by reflexivity.
  destruct (watermarks_converge "E1" saves [pendingE2] H1 H2 H3)
    as (c' & d & f & l & Hs & Hd & Hf & Hl & Hmin & Hmax & _).
  split; [exact H1|]. split; [exact H2|]. split; [exact H3|].
  exists c', d, f, l. split_and!; assumption.
Defined.

(** * The scenario of the specification, run *)

Example save_E1_pending : save 0 entryE1 [] = Ok [pendingE1].
Proof. vm_compute. reflexivity. Qed.

Example claim_E1_leased :
  getIndexJob "J1" 1 5 30 [pendingE1]
  = ([leasedE1], Ok ("J1"%string, [leasedE1])).
Proof. vm_compute. reflexivity. Qed.

Example claim_E1_while_leased :
  getIndexJob "J2" 2 5 30 [leasedE1] = ([leasedE1], Ok ("J2"%string, [])).
Proof. vm_compute. reflexivity. Qed.

Example claim_E1_after_expiry :
  getIndexJob "J3" 32 5 30 [leasedE1]
  = ([claimed "J3" 32 30 pendingE1],
     Ok ("J3"%string, [claimed "J3" 32 30 pendingE1])).
Proof. vm_compute. reflexivity. Qed.

Example late_release_of_J1 :
  setIndexJobFinished "J1" [claimed "J3" 32 30 pendingE1]
  = Ok [claimed "J3" 32 30 pendingE1].
Proof. vm_compute. reflexivity. Qed.

Example save_over_lease :
  save 40 entryE1_again [leasedE1]
  = Ok [saved 40 entryE1_again leasedE1] ∧
  saved 40 entryE1_again leasedE1 !! "indexJob" = None ∧
  saved 40 entryE1_again leasedE1 !! "firstSeen" = Some (VNum 0) ∧
  saved 40 entryE1_again leasedE1 !! "lastSeen" = Some (VNum 7).
Proof. vm_compute. repeat split; reflexivity. Qed.

(** * Further properties of the repository *)

Import Reads Batch.

Section MoreSaveFacts.

Variables (now : Z) (entry : Entry).

Lemma toMongoDocument_firstSeen :
  toMongoDocument entry !! "firstSeen" = Some (VNum (firstSeen entry)).
Proof.
  unfold toMongoDocument. rewrite lookup_insert_ne by done.
  apply lookup_insert_eq.
Qed.

Lemma toMongoDocument_lastSeen :
  toMongoDocument entry !! "lastSeen" = Some (VNum (lastSeen entry)).
Proof.
  unfold toMongoDocument. rewrite !lookup_insert_ne by done.
  apply lookup_insert_eq.
Qed.

Lemma toMongoDocument_descriptive field :
  field ∉ reserved_fields →
  toMongoDocument entry !! field = descriptive entry !! field.
Proof.
  unfold reserved_fields. rewrite !elem_of_union, !elem_of_singleton.
  intros H. unfold toMongoDocument.
  rewrite !lookup_insert_ne by (intros <-; tauto).
  rewrite !lookup_set_optional.
  repeat case_decide; subst; try tauto.
  rewrite lookup_delete_ne by (intros <-; tauto). done.
Qed.

(** A field [save] does not treat by name: the value of the entry if it
    has one, the stored value otherwise. *)
Lemma saved_descriptive (d : Document) field :
  field ∉ reserved_fields →
  saved now entry d !! field = (descriptive entry ∪ d) !! field.
Proof.
  intros H. pose proof (toMongoDocument_descriptive field H) as Hdoc.
  unfold reserved_fields in H.
  rewrite !elem_of_union, !elem_of_singleton in H.
  unfold saved.
  rewrite lookup_apply_update, lookup_save_unset, lookup_save_set.
  repeat case_decide; subst; try tauto.
  rewrite Hdoc, lookup_union.
  rewrite lookup_apply_min by (rewrite lookup_save_min; by case_decide).
  rewrite lookup_apply_max by (rewrite lookup_save_max; by case_decide).
  destruct (descriptive entry !! field), (d !! field); done.
Qed.

End MoreSaveFacts.

(** X1.  [save] returns normally exactly when the saved entry carries
    neither [indexJob] nor [indexJobTimeout]; otherwise it throws the
    store's conflict error, whatever the collection holds. *)
Theorem save_returns_iff_no_lease_carried now entry (c : Collection) :
  ((∃ c', save now entry c = Ok c') ↔
   indexJob entry = None ∧ indexJobTimeout entry = None) ∧
  (save now entry c = Err ConflictingUpdateOperators ↔
   is_Some (indexJob entry) ∨ is_Some (indexJobTimeout entry)).
Proof.
  destruct (decide (carries_no_lease entry)) as [H|H].
  - rewrite save_accepted by done. destruct H as [Hj Ht]. split.
    + split; [done|]. intros _. by eexists.
    + split; [done|]. rewrite Hj, Ht. intros [[? ?]|[? ?]]; done.
  - rewrite save_rejected by done. split.
    + split; [by intros [? ?]|]. intros H'. by destruct H.
    + split; [|done]. intros _. unfold carries_no_lease in H.
      destruct (indexJob entry); [left; by eexists|].
      destruct (indexJobTimeout entry); [right; by eexists|].
      by destruct H.
Qed.

Section MarkerFacts.

Variables (now : Z) (m : option Z) (entry : Entry).

Lemma toMongoDocument_with_marker field :
  field ≠ "indexRequiredSince" →
  toMongoDocument (with_marker m entry) !! field = toMongoDocument entry !! field.
Proof.
  intros H. unfold toMongoDocument, with_marker. cbn.
  rewrite !lookup_insert. repeat case_decide; try done.
  rewrite !lookup_set_optional. by repeat case_decide.
Qed.

Lemma toUpdateOneOperation_with_marker :
  toUpdateOneOperation now (with_marker m entry) = toUpdateOneOperation now entry.
Proof.
  unfold toUpdateOneOperation at 1 2.
  f_equal. f_equal. apply map_eq. intros field.
  pose proof (lookup_save_set now (with_marker m entry) field) as H1.
  pose proof (lookup_save_set now entry field) as H2.
  cbn [toUpdateOneOperation op_update upd_set] in H1, H2.
  cbn [with_marker id firstSeen lastSeen].
  rewrite H1, H2. repeat case_decide; try done.
  by apply toMongoDocument_with_marker.
Qed.

End MarkerFacts.

(** X2.  The marker an entry carries plays no part in a save: the
    operation built for the entry is the same whatever
    [indexRequiredSince] it has, and so is the outcome of [save]. *)
Theorem save_ignores_carried_marker now m entry (c : Collection) :
  toUpdateOneOperation now (with_marker m entry) = toUpdateOneOperation now entry ∧
  save now (with_marker m entry) c = save now entry c.
Proof.
  split; [apply toUpdateOneOperation_with_marker|].
  unfold save. by rewrite toUpdateOneOperation_with_marker.
Qed.

Section SaveShape.

Variables (now : Z) (entry : Entry).

Local Abbreviation no_record l :=
  (Forall (λ x : Document, x !! "_id" ≠ Some (VStr (id entry))) l).

Lemma no_record_matches (l : Collection) :
  no_record l ↔ Forall (λ x, matches (FEq "_id" (VStr (id entry))) x = false) l.
Proof.
  apply Forall_iff. intros x. rewrite <- not_true_iff_false.
  by rewrite matches_FEq.
Qed.

Lemma update_first_at q u (l1 l2 : Collection) (x : Document) :
  Forall (λ y, matches q y = false) l1 → matches q x = true →
  update_first q u (l1 ++ x :: l2) = Some (l1 ++ apply_update u x :: l2).
Proof.
  intros Hl1 Hx. induction Hl1 as [|y l1 Hy _ IH]; cbn [app update_first].
  - by rewrite Hx.
  - by rewrite Hy, IH.
Qed.

(** An accepted save, by what is stored under the id. *)
Lemma perform_save_found (l1 l2 : Collection) (d : Document) :
  carries_no_lease entry →
  no_record l1 → d !! "_id" = Some (VStr (id entry)) →
  perform (CallSave now entry) (l1 ++ d :: l2) = l1 ++ saved now entry d :: l2.
Proof.
  intros H Hl1 Hd. cbn [perform]. rewrite save_accepted by done.
  rewrite update_first_at; [done|by apply no_record_matches|by apply matches_FEq].
Qed.

Lemma perform_save_fresh (c : Collection) :
  carries_no_lease entry → no_record c →
  perform (CallSave now entry) c
  = c ++ [saved now entry {[ "_id" := VStr (id entry) ]}].
Proof.
  intros H Hc. cbn [perform]. rewrite save_accepted by done.
  apply no_record_matches in Hc.
  by rewrite (proj2 (update_first_None _ _ c) Hc).
Qed.

Lemma perform_save_rejected (c : Collection) :
  ¬ carries_no_lease entry → perform (CallSave now entry) c = c.
Proof. intros H. cbn [perform]. by rewrite save_rejected. Qed.

Lemma stored_Some_split i (c : Collection) (d : Document) :
  stored i c = Some d →
  ∃ l1 l2, c = l1 ++ d :: l2 ∧ d !! "_id" = Some (VStr i) ∧
    Forall (λ x : Document, x !! "_id" ≠ Some (VStr i)) l1.
Proof.
  unfold stored. induction c as [|x c IH]; cbn [find]; [done|].
  destruct (matches _ x) eqn:Hm.
  - intros [= <-]. apply matches_FEq in Hm. by exists [], c.
  - intros H. destruct (IH H) as (l1 & l2 & -> & Hd & Hl1).
    exists (x :: l1), l2. split; [done|]. split; [done|].
    constructor; [|done]. intros Hx.
    apply (matches_FEq "_id" (VStr i) x) in Hx. congruence.
Qed.

(** Replacing or appending a document of another id does not change what
    is stored under [j]. *)
Lemma stored_replace j (l1 l2 : Collection) (x y : Document) :
  x !! "_id" ≠ Some (VStr j) → y !! "_id" ≠ Some (VStr j) →
  stored j (l1 ++ x :: l2) = stored j (l1 ++ y :: l2).
Proof.
  intros Hx Hy. unfold stored. induction l1 as [|z l1 IH]; cbn [app find].
  - destruct (matches _ x) eqn:Hmx; [apply matches_FEq in Hmx; done|].
    destruct (matches _ y) eqn:Hmy; [apply matches_FEq in Hmy; done|]. done.
  - by rewrite IH.
Qed.

Lemma stored_snoc j (c : Collection) (x : Document) :
  x !! "_id" ≠ Some (VStr j) → stored j (c ++ [x]) = stored j c.
Proof.
  intros Hx. unfold stored. induction c as [|z c IH]; cbn [app find].
  - destruct (matches _ x) eqn:Hmx; [apply matches_FEq in Hmx; done|done].
  - by rewrite IH.
Qed.

(** What is stored under each id after a save. *)
Lemma stored_perform_save j (c : Collection) :
  stored j (perform (CallSave now entry) c) =
    if decide (j = id entry ∧ carries_no_lease entry)
    then Some (merged now entry (stored j c))
    else stored j c.
Proof.
  destruct (decide (carries_no_lease entry)) as [H|H];
    [|rewrite perform_save_rejected by done; case_decide; tauto].
  case_decide as Hj.
  - destruct Hj as [-> _]. unfold merged.
    destruct (stored_after_save now entry c H) as (c' & Hs & Hst).
    cbn [perform]. by rewrite Hs.
  - assert (j ≠ id entry) as Hne by tauto.
    assert (Hid : ∀ d : Document,
              saved now entry d !! "_id" ≠ Some (VStr j)).
    { intros d. rewrite saved_id. congruence. }
    destruct (stored (id entry) c) as [d|] eqn:Hst.
    + apply stored_Some_split in Hst as (l1 & l2 & -> & Hd & Hl1).
      rewrite perform_save_found by done.
      apply stored_replace; [apply Hid|congruence].
    + apply stored_None in Hst. rewrite perform_save_fresh by done.
      apply stored_snoc, Hid.
Qed.

Lemma value_min_idem g s : value_min g (value_min g s) = value_min g s.
Proof.
  unfold value_min. destruct (value_ltb g s) eqn:Hv; rewrite ?Hv; [|done].
  by destruct (value_ltb g g).
Qed.

Lemma value_max_idem g s : value_max g (value_max g s) = value_max g s.
Proof.
  unfold value_max. destruct (value_ltb s g) eqn:Hv; rewrite ?Hv; [|done].
  by destruct (value_ltb g g).
Qed.

Lemma value_min_self g : value_min g g = g.
Proof. unfold value_min. by destruct (value_ltb g g). Qed.

Lemma value_max_self g : value_max g g = g.
Proof. unfold value_max. by destruct (value_ltb g g). Qed.

(** Saving again over the result of a save changes the marker only. *)
Lemma saved_saved now' (d : Document) :
  saved now' entry (saved now entry d) = saved now' entry d.
Proof.
  apply map_eq. intros field. unfold saved at 1 3.
  rewrite !lookup_apply_update.
  destruct (upd_unset _ !! field) eqn:Hunset; [done|].
  destruct (upd_set _ !! field) eqn:Hset; [done|].
  rewrite lookup_save_set in Hset. rewrite lookup_save_unset in Hunset.
  unfold apply_min, apply_max. rewrite !lookup_union_with.
  rewrite !lookup_save_min, !lookup_save_max.
  repeat case_decide; subst; try done.
  - rewrite saved_firstSeen.
    destruct (d !! "firstSeen") as [v|]; cbn [union_with option_union_with].
    + by rewrite value_min_idem.
    + by rewrite value_min_self.
  - rewrite saved_lastSeen.
    destruct (d !! "lastSeen") as [v|]; cbn [union_with option_union_with].
    + by rewrite value_max_idem.
    + by rewrite value_max_self.
  - f_equal. f_equal.
    unfold saved. rewrite lookup_apply_update, lookup_save_unset, lookup_save_set.
    repeat case_decide; try done.
    rewrite lookup_apply_min by (rewrite lookup_save_min; by case_decide).
    rewrite lookup_apply_max by (rewrite lookup_save_max; by case_decide).
    by rewrite Hset.
Qed.

End SaveShape.

(** X3.  An accepted save merges the descriptive fields into the stored
    record: a field the saved entry has takes the entry's value, and a
    field the entry does not have keeps the value stored before (it is
    not removed). *)
Theorem save_merges_descriptive_fields now entry (c : Collection) field :
  carries_no_lease entry →
  field ∉ reserved_fields →
  ∃ c' d', save now entry c = Ok c' ∧ stored (id entry) c' = Some d' ∧
    d' !! field =
      match descriptive entry !! field with
      | Some v => Some v
      | None => stored (id entry) c ≫= (.!! field)
      end.
Proof.
  intros H Hf. destruct (stored_after_save now entry c H) as (c' & Hs & Hst).
  eexists c', _. split; [done|]. split; [done|].
  rewrite saved_descriptive, lookup_union by done.
  destruct (descriptive entry !! field) as [v|]; cbn.
  - by destruct (default _ _ !! field).
  - destruct (stored (id entry) c) as [d|]; cbn; [by destruct (d !! field)|].
    unfold reserved_fields in Hf.
    rewrite !elem_of_union, !elem_of_singleton in Hf.
    rewrite lookup_singleton_ne by (intros <-; tauto). done.
Qed.

Lemma save_merges_descriptive_fields_witness :
  carries_no_lease entryE2 ∧ ("title" ∉ reserved_fields) ∧
  ∃ c' d', save 9 entryE2 [pendingE1; (<["title" := VStr "old"]> pendingE2)] = Ok c' ∧
    stored "E2" c' = Some d' ∧ d' !! "title" = Some (VStr "old").
Proof.
  assert (H1 : carries_no_lease entryE2) by by_evaluation.
  assert (H2 : "title" ∉ reserved_fields) by by_evaluation.
  split; [exact H1|]. split; [exact H2|].
  destruct (save_merges_descriptive_fields 9 entryE2
              [pendingE1; (<["title" := VStr "old"]> pendingE2)] "title" H1 H2)
    as (c' & d' & Hs & Hst & Hf).
  exists c', d'. split; [exact Hs|]. split; [exact Hst|]. exact Hf.
Defined.

(** X4.  A save touches the record of its id and nothing else: what is
    stored under any other id is unchanged, every document of another id
    is still in the collection, and the collection grows by one document
    exactly when the save is accepted and the id had no record. *)
Theorem save_touches_one_record now entry (c : Collection) :
  (∀ j, j ≠ id entry →
     stored j (perform (CallSave now entry) c) = stored j c) ∧
  (∀ d : Document, d ∈ c → d !! "_id" ≠ Some (VStr (id entry)) →
     d ∈ perform (CallSave now entry) c) ∧
  length (perform (CallSave now entry) c)
  = (length c +
     if decide (carries_no_lease entry ∧ stored (id entry) c = None)
     then 1 else 0)%nat.
Proof.
  split; [|split].
  - intros j Hj. rewrite stored_perform_save. case_decide; tauto.
  - intros d Hd Hid. apply perform_save_keeps; [congruence|done].
  - destruct (decide (carries_no_lease entry)) as [H|H].
    + destruct (stored (id entry) c) as [d|] eqn:Hst.
      * apply stored_Some_split in Hst as (l1 & l2 & -> & Hd & Hl1).
        rewrite perform_save_found by done. rewrite !length_app. cbn.
        case_decide as Hc; [by destruct Hc|lia].
      * apply stored_None in Hst. rewrite perform_save_fresh by done.
        rewrite length_app. cbn. case_decide; [done|tauto].
    + rewrite perform_save_rejected by done. case_decide; [tauto|lia].
Qed.

(** X5.  Saving an entry twice in a row leaves the same collection as
    the second save alone: a repeated save rewrites the marker and
    nothing else. *)
Theorem save_again_is_one_save now now' entry (c : Collection) :
  perform (CallSave now' entry) (perform (CallSave now entry) c)
  = perform (CallSave now' entry) c.
Proof.
  destruct (decide (carries_no_lease entry)) as [H|H];
    [|by rewrite !perform_save_rejected].
  destruct (stored (id entry) c) as [d|] eqn:Hst.
  - apply stored_Some_split in Hst as (l1 & l2 & -> & Hd & Hl1).
    rewrite (perform_save_found now) by done.
    rewrite !perform_save_found by (done || apply saved_id).
    by rewrite saved_saved.
  - apply stored_None in Hst.
    rewrite (perform_save_fresh now) by done.
    rewrite perform_save_found by (done || apply saved_id).
    rewrite perform_save_fresh by done.
    by rewrite saved_saved.
Qed.

(** X6.  An accepted save leaves the record of its id claimable at once:
    no lease, the marker set to the time of the save, and the filter of
    [getIndexJob] matching it at every timestamp, whatever lease the
    record held before. *)
Theorem save_makes_claimable now entry (c : Collection) :
  carries_no_lease entry →
  ∃ c' d, save now entry c = Ok c' ∧ stored (id entry) c' = Some d ∧
    d !! "indexRequiredSince" = Some (VNum now) ∧
    d !! "indexJob" = None ∧ d !! "indexJobTimeout" = None ∧
    ∀ timestamp, eligible timestamp d = true.
Proof.
  intros H. destruct (save_clears_lease now entry c H)
    as (c' & d & Hs & Hst & Hj & Ht & Hm & _).
  exists c', d. split_and!; try done.
  intros timestamp. apply eligible_spec. split; [by eexists|by left].
Qed.

Lemma save_makes_claimable_witness :
  carries_no_lease entryE1_again ∧
  ∃ c' d, save 40 entryE1_again [leasedE1] = Ok c' ∧
    stored "E1" c' = Some d ∧ eligible 40 d = true.
Proof.
  assert (H : carries_no_lease entryE1_again) by by_evaluation.
  split; [exact H|].
  destruct (save_makes_claimable 40 entryE1_again [leasedE1] H)
    as (c' & d & Hs & Hst & _ & _ & _ & Hel).
  exists c', d. split; [exact Hs|]. split; [exact Hst|]. apply Hel.
Defined.

Section SaveManyFacts.

(** The bulk of [saveMany], operation by operation. *)
Lemma saveMany_cons now entry rest (c : Collection) :
  saveMany ((now, entry) :: rest) c =
    if decide (carries_no_lease entry)
    then saveMany rest (perform (CallSave now entry) c)
    else ((saveMany rest c).1, ConflictingUpdateOperators :: (saveMany rest c).2).
Proof.
  unfold saveMany at 1. cbn [map bulkWrite]. fold (save now entry c).
  fold (saveMany rest c). case_decide as H.
  - cbn [perform]. rewrite save_accepted by done. done.
  - rewrite save_rejected by done. by destruct (saveMany rest c).
Qed.

Lemma saveMany_stored_other j entries (c : Collection) :
  Forall (λ p : Z * Entry, id p.2 ≠ j) entries →
  stored j (saveMany entries c).1 = stored j c.
Proof.
  intros H. rewrite saveMany_fold. revert c.
  induction H as [|[now entry] rest Hne _ IH]; intros c; [done|].
  cbn [foldl fst snd] in *. rewrite IH, stored_perform_save.
  case_decide as Hj; [|done]. destruct Hj as [-> _]. done.
Qed.

(** In a bulk whose entries have pairwise distinct ids, each entry meets
    the record as it was before the bulk. *)
Lemma saveMany_stored_entry entries (c : Collection) now entry :
  NoDup (map (λ p : Z * Entry, id p.2) entries) →
  (now, entry) ∈ entries →
  stored (id entry) (saveMany entries c).1 =
    if decide (carries_no_lease entry)
    then Some (merged now entry (stored (id entry) c))
    else stored (id entry) c.
Proof.
  intros Hnd Hin. revert c.
  induction entries as [|[now0 entry0] rest IH]; intros c.
  - by apply elem_of_nil in Hin.
  - cbn [map fst snd] in Hnd. apply NoDup_cons in Hnd as [Hhead Hnd].
    rewrite saveMany_fold. cbn [foldl fst snd]. rewrite <- saveMany_fold.
    apply elem_of_cons in Hin as [[= -> ->]|Hin].
    + rewrite saveMany_stored_other.
      * rewrite stored_perform_save. case_decide; case_decide; tauto.
      * apply Forall_forall. intros p Hp Heq. apply Hhead.
        apply list_elem_of_fmap. by exists p.
    + rewrite IH by done.
      assert (id entry ≠ id entry0) as Hne.
      { intros Heq. apply Hhead. apply list_elem_of_fmap.
        by exists (now, entry). }
      rewrite stored_perform_save. case_decide; case_decide; tauto.
Qed.

End SaveManyFacts.

(** X7.  [saveMany] carries on past a rejected entry.  It applies the
    entries the store accepts, in order, exactly as if the rejected ones
    were not in the bulk, and reports one conflict error for each
    rejected entry. *)
Theorem saveMany_skips_rejected entries (c : Collection) :
  (saveMany entries c).1 = (saveMany (accepted entries) c).1 ∧
  (saveMany (accepted entries) c).2 = [] ∧
  (saveMany entries c).2
  = map (λ _, ConflictingUpdateOperators) (rejected entries).
Proof.
  revert c. induction entries as [|[now entry] rest IH]; intros c; [done|].
  unfold accepted, rejected in *. cbn [List.filter fst snd].
  rewrite saveMany_cons.
  destruct (decide (carries_no_lease entry)) as [H|H].
  - rewrite bool_decide_eq_true_2 by done. cbn [negb].
    rewrite saveMany_cons. rewrite decide_True by done. apply IH.
  - rewrite bool_decide_eq_false_2 by done. cbn [negb map fst snd].
    destruct (IH c) as (H1 & H2 & H3). by rewrite H1, H2, H3.
Qed.

(** X8.  In a [saveMany] whose entries have pairwise distinct ids, every
    accepted entry is merged into the record stored before the bulk, and
    the record stored under each id afterwards does not depend on the
    order in which the store applies the operations of the bulk. *)
Theorem saveMany_order_irrelevant entries (c : Collection) :
  NoDup (map (λ p : Z * Entry, id p.2) entries) →
  (∀ now entry, (now, entry) ∈ entries → carries_no_lease entry →
     stored (id entry) (saveMany entries c).1
     = Some (merged now entry (stored (id entry) c))) ∧
  (∀ entries', entries' ≡ₚ entries →
     ∀ j, stored j (saveMany entries' c).1 = stored j (saveMany entries c).1).
Proof.
  intros Hnd. split.
  - intros now entry Hin H.
    rewrite (saveMany_stored_entry entries c now entry) by done.
    by rewrite decide_True.
  - intros entries' Hp j.
    assert (Hnd' : NoDup (map (λ p : Z * Entry, id p.2) entries'))
      by (by rewrite Hp).
    destruct (decide (j ∈ map (λ p : Z * Entry, id p.2) entries)) as [Hj|Hj].
    + apply list_elem_of_fmap in Hj as ([now entry] & -> & Hin).
      cbn [snd].
      rewrite (saveMany_stored_entry entries c now entry) by done.
      rewrite (saveMany_stored_entry entries' c now entry); [done..|].
      by rewrite Hp.
    + assert (Hall : ∀ l : list (Z * Entry), l ≡ₚ entries →
                Forall (λ p : Z * Entry, id p.2 ≠ j) l).
      { intros l Hl. apply Forall_forall. intros p Hp' Heq. apply Hj.
        apply list_elem_of_fmap. exists p. split; [done|]. by rewrite <- Hl. }
      rewrite !saveMany_stored_other; auto.
Qed.

Lemma saveMany_order_irrelevant_witness :
  let entries := [(3, entryE2); (4, entryE1_again)] in
  NoDup (map (λ p : Z * Entry, id p.2) entries) ∧
  ∀ j, stored j (saveMany [(4, entryE1_again); (3, entryE2)] [leasedE1]).1
       = stored j (saveMany entries [leasedE1]).1.
Proof.
  intros entries.
  assert (H : NoDup (map (λ p : Z * Entry, id p.2) entries)) by by_evaluation.
  split; [exact H|].
  apply (proj2 (saveMany_order_irrelevant entries [leasedE1] H)).
  apply Permutation_swap.
Defined.

Section IdFacts.

Lemma perform_save_ids now entry (c : Collection) :
  ids (perform (CallSave now entry) c) = ids c ∨
  ids (perform (CallSave now entry) c) = ids c ++ [Some (VStr (id entry))].
Proof.
  unfold ids.
  destruct (perform_save_cases now entry c)
    as [->|[(l1 & d & l2 & -> & Hd & _ & ->)|[_ ->]]]; [by left| |].
  - left. rewrite !map_app. cbn [map]. by rewrite saved_id, Hd.
  - right. rewrite map_app. cbn [map]. by rewrite saved_id.
Qed.

Lemma perform_ids_prefix k (c : Collection) :
  ids c `prefix_of` ids (perform k c).
Proof.
  destruct k as [now entry|entries|jobId timestamp count timeout|jobId].
  - destruct (perform_save_ids now entry c) as [->| ->];
      [done|by apply prefix_app_r].
  - cbn [perform]. rewrite saveMany_fold. revert c.
    induction entries as [|[now entry] rest IH]; intros c; [done|].
    cbn [foldl fst snd]. etrans; [|apply IH].
    destruct (perform_save_ids now entry c) as [->| ->];
      [done|by apply prefix_app_r].
  - cbn [perform]. rewrite getIndexJob_unfold. cbn [fst].
    unfold ids. by rewrite after_claims_ids.
  - cbn [perform]. pose proof (released_ids jobId c) as H.
    rewrite setIndexJobFinished_unfold in *.
    unfold ids. by rewrite (H _ eq_refl).
Qed.

Lemma perform_unique_ids k (c : Collection) :
  unique_ids c → unique_ids (perform k c).
Proof.
  intros Hu.
  destruct k as [now entry|entries|jobId timestamp count timeout|jobId].
  - by apply perform_save_unique_ids.
  - cbn [perform]. rewrite saveMany_fold. revert c Hu.
    induction entries as [|[now entry] rest IH]; intros c Hu; [done|].
    cbn [foldl fst snd]. by apply IH, perform_save_unique_ids.
  - cbn [perform]. rewrite getIndexJob_unfold. cbn [fst].
    unfold unique_ids. by rewrite after_claims_ids.
  - cbn [perform]. pose proof (released_ids jobId c) as H.
    rewrite setIndexJobFinished_unfold in *.
    unfold unique_ids. by rewrite (H _ eq_refl).
Qed.

Lemma history_perform ks k (c : Collection) :
  (history (ks ++ [k]) c).1 = perform k (history ks c).1.
Proof.
  revert c. induction ks as [|k0 ks IH]; intros c; cbn [app history].
  - done.
  - specialize (IH (perform k0 c)).
    destruct (history (ks ++ [k]) (perform k0 c)).
    destruct (history ks (perform k0 c)). done.
Qed.

End IdFacts.

(** X9.  No call of the repository deletes a record or changes its id:
    after [save], [saveMany], [getIndexJob] or [setIndexJobFinished] the
    [_id]s the collection had before are still there, in place; a call
    can only add records behind them. *)
Theorem calls_never_delete k (c : Collection) :
  ids c `prefix_of` ids (perform k c) ∧
  (length c ≤ length (perform k c))%nat.
Proof.
  pose proof (perform_ids_prefix k c) as H. split; [done|].
  apply prefix_length in H. unfold ids in H. by rewrite !length_map in H.
Qed.

(** X10.  Every collection the repository builds from the empty one holds
    at most one record for an id: whatever calls are made, in whatever
    order, the [_id]s stay pairwise distinct. *)
Theorem reachable_unique_ids (ks : list Call) :
  unique_ids (history ks []).1.
Proof.
  induction ks as [|k ks IH] using rev_ind.
  - apply NoDup_nil_2.
  - rewrite history_perform. by apply perform_unique_ids.
Qed.

Section BatchFacts.

Variables (jobId : string) (timestamp timeout : Z).

Local Abbreviation step := (claim_step jobId timestamp timeout).
Local Abbreviation lease := (claimed jobId timestamp timeout).

Lemma claim_step_nil : step [] = [].
Proof. done. Qed.

Lemma claim_step_cons (d : Document) (rest : Collection) :
  step (d :: rest) =
    if eligible timestamp d then lease d :: rest else d :: step rest.
Proof.
  unfold claim_step, eligible. cbn [update_first].
  destruct (matches (indexJobFilter timestamp) d); [done|].
  by destruct (update_first _ _ rest).
Qed.

Lemma claimed_claimed (d : Document) : lease (lease d) = lease d.
Proof.
  apply map_eq. intros field. rewrite !lookup_claimed.
  by repeat case_decide.
Qed.

Lemma claimed_eligible_again (d : Document) :
  eligible timestamp d = true →
  eligible timestamp (lease d) = bool_decide (timeout ≤ 0).
Proof.
  intros [Hr _]%eligible_spec.
  case_bool_decide as Hto.
  - apply eligible_spec. split; [by rewrite claimed_other|].
    right. unfold lease_expired. rewrite claimed_timeout. lia.
  - eapply leased_not_eligible;
      [by rewrite claimed_tagged|apply claimed_timeout|lia].
Qed.

(** A bulk only ever writes the lease, and only on documents that were
    eligible when the call began. *)
Lemma after_claims_pointwise k (c : Collection) :
  Forall2 (λ d d', d' = d ∨ (eligible timestamp d = true ∧ d' = lease d))
    c (after_claims k jobId timestamp timeout c).
Proof.
  induction k as [|k IH].
  - rewrite after_claims_0. induction c; constructor; auto.
  - rewrite after_claims_S.
    destruct (claim_step_cases jobId timestamp timeout
                (after_claims k jobId timestamp timeout c))
      as [[_ ->]|(l1 & dk & l2 & Hc & Hel & _ & ->)]; [done|].
    rewrite Hc in IH.
    apply Forall2_app_inv_r in IH as (c1 & c2 & H1 & H2 & ->).
    apply Forall2_cons_inv_r in H2 as (d & c2' & Hd & H2 & ->).
    apply Forall2_app; [done|]. constructor; [|done].
    right. destruct Hd as [->|[Hd ->]]; [done|].
    split; [done|]. apply claimed_claimed.
Qed.

End BatchFacts.

(** X11.  [getIndexJob] writes nothing but leases, and only on documents
    eligible when the call began: document by document, the collection
    it leaves holds either the document as it was, or an eligible one
    with [indexJob] and [indexJobTimeout] set by this call. *)
Theorem getIndexJob_touches_only_eligible jobId timestamp count timeout
    (c : Collection) :
  Forall2 (λ d d',
      d' = d ∨
      (eligible timestamp d = true ∧
       d' = <["indexJob" := VStr jobId]>
              (<["indexJobTimeout" := VNum (timestamp + timeout)]> d)))
    c (getIndexJob jobId timestamp count timeout c).1.
Proof.
  rewrite getIndexJob_unfold. cbn [fst].
  eapply Forall2_impl; [apply after_claims_pointwise|].
  intros d d' [->|[Hel ->]]; [by left|right]. split; [done|].
  apply map_eq. intros field. rewrite lookup_claimed.
  repeat case_decide; subst.
  - by rewrite lookup_insert_eq.
  - rewrite lookup_insert_ne by done. by rewrite lookup_insert_eq.
  - by rewrite !lookup_insert_ne.
Qed.

Section ReclaimFacts.

Variables (jobId : string) (timestamp timeout : Z).

(** With a lease that is not positive the document a step claims is
    eligible again for the next step, which claims it again. *)
Lemma claim_step_twice (c : Collection) :
  timeout ≤ 0 →
  claim_step jobId timestamp timeout (claim_step jobId timestamp timeout c)
  = claim_step jobId timestamp timeout c.
Proof.
  intros Hto. induction c as [|d rest IH]; [done|].
  rewrite claim_step_cons. destruct (eligible timestamp d) eqn:Hel.
  - rewrite claim_step_cons, claimed_eligible_again by done.
    rewrite bool_decide_eq_true_2 by done. by rewrite claimed_claimed.
  - by rewrite claim_step_cons, Hel, IH.
Qed.

Lemma after_claims_reclaims k (c : Collection) :
  timeout ≤ 0 →
  after_claims (S k) jobId timestamp timeout c
  = claim_step jobId timestamp timeout c.
Proof.
  intros Hto. induction k as [|k IH].
  - by rewrite after_claims_S, after_claims_0.
  - by rewrite after_claims_S, IH, claim_step_twice.
Qed.

End ReclaimFacts.

Section ReleaseMore.

Lemma released_claimed jobId timestamp timeout (d : Document) :
  released (claimed jobId timestamp timeout d) = released d.
Proof.
  apply map_eq. intros field. rewrite !lookup_released.
  case_decide as H; [done|]. rewrite elem_of_lease_fields in H.
  apply claimed_other; intros ->; tauto.
Qed.

Lemma released_released (d : Document) : released (released d) = released d.
Proof.
  apply map_eq. intros field. rewrite !lookup_released. by case_decide.
Qed.

Lemma perform_release jobId (c : Collection) :
  perform (CallSetIndexJobFinished jobId) c
  = map (λ d, if decide (tagged jobId d) then released d else d) c.
Proof.
  cbn [perform]. rewrite setIndexJobFinished_unfold.
  apply map_ext. intros d. case_decide as H.
  - by rewrite (proj2 (matches_FEq _ _ _) H).
  - destruct (matches _ d) eqn:Hm; [|done]. apply matches_FEq in Hm. done.
Qed.

End ReleaseMore.

(** X16.  Releases commute: releasing two jobs leaves the same
    collection whichever is released first, and releasing a job twice
    is releasing it once. *)
Theorem releases_commute jobId jobId' (c : Collection) :
  perform (CallSetIndexJobFinished jobId')
    (perform (CallSetIndexJobFinished jobId) c)
  = perform (CallSetIndexJobFinished jobId)
      (perform (CallSetIndexJobFinished jobId') c) ∧
  perform (CallSetIndexJobFinished jobId)
    (perform (CallSetIndexJobFinished jobId) c)
  = perform (CallSetIndexJobFinished jobId) c.
Proof.
  rewrite !perform_release, !map_map. split; apply map_ext; intros d.
  - pose proof (released_not_tagged jobId d).
    pose proof (released_not_tagged jobId' d).
    repeat case_decide; try done.
  - pose proof (released_not_tagged jobId d).
    repeat case_decide; done.
Qed.

(** X17.  The queries of the repository stay within its partial indexes:
    a partial index of [indexes] holds exactly the documents that have
    its key, and every document the filter of [getIndexJob] selects is
    in the index on [indexRequiredSince], every document its [$lte]
    clause selects in the index on [indexJobTimeout], and every document
    selected by job id (read-back and release) in the index on
    [indexJob]. *)
Theorem queries_covered_by_partial_indexes :
  (∀ spec q (d : Document), spec ∈ indexes →
     partialFilterExpression spec = Some q →
     (in_index spec d = true ↔ is_Some (d !! key spec))) ∧
  (∀ timestamp (d : Document), eligible timestamp d = true →
     ∃ spec, index_on "indexRequiredSince" = Some spec ∧ in_index spec d = true) ∧
  (∀ bound (d : Document), matches (FLte "indexJobTimeout" bound) d = true →
     ∃ spec, index_on "indexJobTimeout" = Some spec ∧ in_index spec d = true) ∧
  (∀ jobId (d : Document), matches (FEq "indexJob" (VStr jobId)) d = true →
     ∃ spec, index_on "indexJob" = Some spec ∧ in_index spec d = true).
Proof.
  assert (Hex : ∀ field (d : Document),
            matches (FExists field true) d = true ↔ is_Some (d !! field)).
  { intros field d. cbn [matches]. case_bool_decide; split; done. }
  split_and!.
  - intros spec q d Hin Hq. unfold indexes in Hin.
    repeat (apply elem_of_cons in Hin as [->|Hin]);
      try (by apply elem_of_nil in Hin); cbn in Hq; try discriminate;
      injection Hq as <-; unfold in_index; cbn [partialFilterExpression key];
      apply Hex.
  - intros timestamp d [Hr _]%eligible_spec.
    eexists. split; [reflexivity|]. unfold in_index.
    cbn [partialFilterExpression]. by apply Hex.
  - intros bound d Hm. eexists. split; [reflexivity|]. unfold in_index.
    cbn [partialFilterExpression]. apply Hex. cbn [matches] in Hm.
    destruct (d !! "indexJobTimeout"); [by eexists|done].
  - intros jobId d Hm%matches_FEq. eexists. split; [reflexivity|].
    unfold in_index. cbn [partialFilterExpression]. apply Hex. by eexists.
Qed.

Section LoadFacts.

Lemma load_stored i (c : Collection) :
  load i c = match stored i c with Some d => inl d | None => inr NotFound end.
Proof. done. Qed.

Lemma stored_ids i (c : Collection) :
  is_Some (stored i c) ↔ Some (VStr i) ∈ ids c.
Proof.
  unfold ids. split.
  - intros [d Hd]. apply stored_Some_split in Hd as (l1 & l2 & -> & Hid & _).
    apply list_elem_of_fmap. exists d. split; [done|].
    rewrite elem_of_app, elem_of_cons. auto.
  - intros (d & Hid & Hd)%list_elem_of_fmap.
    destruct (stored i c) eqn:Hst; [by eexists|].
    apply stored_None in Hst. rewrite Forall_forall in Hst.
    by destruct (Hst d Hd).
Qed.

(** The document a fresh save inserts. *)
Lemma saved_seed now entry :
  carries_no_lease entry →
  saved now entry {[ "_id" := VStr (id entry) ]}
  = <["indexRequiredSince" := VNum now]> (toMongoDocument entry).
Proof.
  intros [Hj Ht]. apply map_eq. intros field.
  destruct (decide (field = "indexRequiredSince")) as [->|Hm].
  { by rewrite saved_indexRequiredSince, lookup_insert_eq. }
  rewrite lookup_insert_ne by done.
  destruct (decide (field = "indexJob")) as [->|Hjob].
  { by rewrite saved_indexJob, toMongoDocument_indexJob, Hj. }
  destruct (decide (field = "indexJobTimeout")) as [->|Hto].
  { by rewrite saved_indexJobTimeout, toMongoDocument_indexJobTimeout, Ht. }
  destruct (decide (field = "firstSeen")) as [->|Hf].
  { by rewrite saved_firstSeen, toMongoDocument_firstSeen. }
  destruct (decide (field = "lastSeen")) as [->|Hl].
  { by rewrite saved_lastSeen, toMongoDocument_lastSeen. }
  destruct (decide (field = "_id")) as [->|Hid].
  { by rewrite saved_id, toMongoDocument_id. }
  unfold saved. rewrite lookup_apply_update, lookup_save_unset, lookup_save_set.
  repeat case_decide; try done.
  rewrite lookup_apply_min by (rewrite lookup_save_min; by case_decide).
  rewrite lookup_apply_max by (rewrite lookup_save_max; by case_decide).
  rewrite lookup_singleton_ne by done.
  by destruct (toMongoDocument entry !! field).
Qed.

Lemma elem_of_loadMany l (c : Collection) (e : Document) :
  e ∈ loadMany l c ↔ e ∈ c ∧ ∃ i, i ∈ l ∧ e !! "_id" = Some (VStr i).
Proof.
  unfold loadMany. rewrite !list_elem_of_In, filter_In, existsb_exists.
  split; intros [He (i & Hi & Hm)]; (split; [done|]); exists i; split.
  - by apply list_elem_of_In.
  - by apply matches_FEq in Hm.
  - by apply list_elem_of_In.
  - by apply matches_FEq.
Qed.

End LoadFacts.

(** X18.  Save then load, for an id that has no record: [load] fails with
    [NotFound] before the save, and after an accepted save it returns
    the saved entry as a document, with [indexRequiredSince] set to the
    time of the save. *)
Theorem load_after_first_save now entry (c : Collection) :
  carries_no_lease entry →
  load (id entry) c = inr NotFound →
  ∃ c', save now entry c = Ok c' ∧
    load (id entry) c'
    = inl (<["indexRequiredSince" := VNum now]> (toMongoDocument entry)).
Proof.
  intros H Hload. rewrite load_stored in Hload.
  destruct (stored (id entry) c) eqn:Hst; [done|].
  destruct (stored_after_save now entry c H) as (c' & Hs & Hst').
  exists c'. split; [done|]. rewrite load_stored, Hst', Hst.
  cbn [from_option Datatypes.id]. by rewrite saved_seed.
Qed.

Lemma load_after_first_save_witness :
  carries_no_lease entryE2 ∧ load (id entryE2) [leasedE1] = inr NotFound ∧
  ∃ c', save 7 entryE2 [leasedE1] = Ok c' ∧
    load "E2" c' = inl (<["indexRequiredSince" := VNum 7]> (toMongoDocument entryE2)).
Proof.
  assert (H1 : carries_no_lease entryE2) by by_evaluation.
  assert (H2 : load (id entryE2) [leasedE1] = inr NotFound) by reflexivity.
  split; [exact H1|]. split; [exact H2|].
  exact (load_after_first_save 7 entryE2 [leasedE1] H1 H2).
Defined.

(** X19.  An id that loads keeps loading: after any call of [save],
    [saveMany], [getIndexJob] or [setIndexJobFinished], [load] still
    finds a record for every id it found before. *)
Theorem load_survives_calls i k (c : Collection) (d : Document) :
  load i c = inl d →
  ∃ d', load i (perform k c) = inl d'.
Proof.
  rewrite !load_stored. intros Hload.
  assert (Hin : Some (VStr i) ∈ ids c).
  { apply stored_ids. destruct (stored i c); [by eexists|done]. }
  destruct (perform_ids_prefix k c) as [added Hids].
  assert (Hin' : Some (VStr i) ∈ ids (perform k c)).
  { rewrite Hids, elem_of_app. by left. }
  apply stored_ids in Hin' as [d' Hd']. exists d'. by rewrite Hd'.
Qed.

Lemma load_survives_calls_witness :
  load "E1" [leasedE1] = inl leasedE1 ∧
  ∃ d', load "E1" (perform (CallSetIndexJobFinished "J1") [leasedE1]) = inl d'.
Proof.
  assert (H : load "E1" [leasedE1] = inl leasedE1) by reflexivity.
  split; [exact H|].
  exact (load_survives_calls "E1" (CallSetIndexJobFinished "J1") [leasedE1]
           leasedE1 H).
Defined.

Section WidenFacts.

Lemma stored_same_outside_lease i (c c' : Collection) (d : Document) :
  Forall2 same_outside_lease c c' →
  stored i c = Some d →
  ∃ d', stored i c' = Some d' ∧ same_outside_lease d d'.
Proof.
  assert (Hid : "_id" ∉ lease_fields).
  { rewrite elem_of_lease_fields. intros [?|[?|?]]; discriminate. }
  unfold stored. induction 1 as [|x x' c c' Hx _ IH]; cbn [find]; [done|].
  assert (Hm : matches (FEq "_id" (VStr i)) x' = matches (FEq "_id" (VStr i)) x).
  { cbn [matches]. by rewrite (Hx "_id" Hid). }
  rewrite Hm. destruct (matches _ x); [|done].
  intros [= <-]. by exists x'.
Qed.

Lemma perform_release_frame jobId (c : Collection) :
  Forall2 same_outside_lease c (perform (CallSetIndexJobFinished jobId) c).
Proof.
  rewrite perform_release. induction c as [|d c IH]; constructor; [|done].
  case_decide; [apply released_same_outside_lease|apply same_outside_lease_refl].
Qed.

(** The watermarks of a record, as numbers. *)
Lemma widen_save now entry i (c : Collection) (d : Document) f l :
  stored i c = Some d →
  d !! "firstSeen" = Some (VNum f) → d !! "lastSeen" = Some (VNum l) →
  ∃ d' f' l', stored i (perform (CallSave now entry) c) = Some d' ∧
    d' !! "firstSeen" = Some (VNum f') ∧ d' !! "lastSeen" = Some (VNum l') ∧
    f' ≤ f ∧ l ≤ l'.
Proof.
  intros Hst Hf Hl. rewrite stored_perform_save, Hst. case_decide.
  - unfold merged. cbn [from_option Datatypes.id].
    eexists _, (Z.min (firstSeen entry) f), (Z.max (lastSeen entry) l).
    split; [done|].
    rewrite saved_firstSeen, saved_lastSeen, Hf, Hl.
    rewrite value_min_num, value_max_num. split_and!; try done; lia.
  - exists d, f, l. split_and!; try done; lia.
Qed.

End WidenFacts.

(** X21.  Watermarks only widen.  Whatever call is made, a record with
    numeric watermarks is still stored under its id afterwards, with a
    [firstSeen] that is not later and a [lastSeen] that is not earlier
    than before. *)
Theorem watermarks_only_widen k i (c : Collection) (d : Document) f l :
  stored i c = Some d →
  d !! "firstSeen" = Some (VNum f) →
  d !! "lastSeen" = Some (VNum l) →
  ∃ d' f' l', stored i (perform k c) = Some d' ∧
    d' !! "firstSeen" = Some (VNum f') ∧
    d' !! "lastSeen" = Some (VNum l') ∧
    f' ≤ f ∧ l ≤ l'.
Proof.
  assert (Hframe : ∀ c' : Collection, Forall2 same_outside_lease c c' →
            stored i c = Some d →
            d !! "firstSeen" = Some (VNum f) → d !! "lastSeen" = Some (VNum l) →
            ∃ d' f' l', stored i c' = Some d' ∧
              d' !! "firstSeen" = Some (VNum f') ∧
              d' !! "lastSeen" = Some (VNum l') ∧ f' ≤ f ∧ l ≤ l').
  { intros c' HF Hst Hf Hl.
    destruct (stored_same_outside_lease i c c' d HF Hst) as (d' & Hst' & Hsame).
    exists d', f, l. split; [done|].
    rewrite !Hsame
      by (rewrite elem_of_lease_fields; intros [?|[?|?]]; discriminate).
    split_and!; try done; lia. }
  destruct k as [now entry|entries|jobId timestamp count timeout|jobId].
  - apply widen_save.
  - cbn [perform]. rewrite saveMany_fold. clear Hframe. revert c d f l.
    induction entries as [|[now entry] rest IH]; intros c d f l Hst Hf Hl.
    + exists d, f, l. split_and!; try done; lia.
    + cbn [foldl fst snd].
      destruct (widen_save now entry i c d f l Hst Hf Hl)
        as (d1 & f1 & l1 & Hst1 & Hf1 & Hl1 & ? & ?).
      destruct (IH _ d1 f1 l1 Hst1 Hf1 Hl1)
        as (d' & f' & l' & Hst' & Hf' & Hl' & ? & ?).
      exists d', f', l'. split_and!; try done; lia.
  - apply Hframe. cbn [perform]. rewrite getIndexJob_unfold.
    apply after_claims_frame.
  - apply Hframe, perform_release_frame.
Qed.

Lemma watermarks_only_widen_witness :
  stored "E1" [leasedE1] = Some leasedE1 ∧
  leasedE1 !! "firstSeen" = Some (VNum 0) ∧
  leasedE1 !! "lastSeen" = Some (VNum 0) ∧
  ∃ d' f' l', stored "E1" (perform (CallSave 40 entryE1_again) [leasedE1]) = Some d' ∧
    d' !! "firstSeen" = Some (VNum f') ∧ d' !! "lastSeen" = Some (VNum l') ∧
    f' ≤ 0 ∧ 0 ≤ l'.
Proof.
  assert (H1 : stored "E1" [leasedE1] = Some leasedE1) by reflexivity.
  assert (H2 : leasedE1 !! "firstSeen" = Some (VNum 0)) by reflexivity.
  assert (H3 : leasedE1 !! "lastSeen" = Some (VNum 0)) by reflexivity.
  split; [exact H1|]. split; [exact H2|]. split; [exact H3|].
  exact (watermarks_only_widen (CallSave 40 entryE1_again) "E1" [leasedE1]
           leasedE1 0 0 H1 H2 H3).
Defined.

Section BatchIds.

Lemma ids_filter_sublist (f : Document → bool) (c : Collection) :
  ids (List.filter f c) `sublist_of` ids c.
Proof.
  unfold ids. induction c as [|d c IH]; [done|]. cbn [List.filter map].
  destruct (f d); [by apply sublist_skip|by apply sublist_cons].
Qed.

End BatchIds.

(** X22.  A batch holds no entry twice: where the ids of the collection
    are unique, the entries [getIndexJob] returns have pairwise distinct
    ids. *)
Theorem batch_has_distinct_ids jobId timestamp count timeout (c : Collection) :
  unique_ids c →
  NoDup (ids (returned (CallGetIndexJob jobId timestamp count timeout) c)).
Proof.
  intros Hu. cbn [returned]. rewrite getIndexJob_unfold. cbn [snd].
  eapply sublist_NoDup; [|apply ids_filter_sublist].
  unfold ids. by rewrite after_claims_ids.
Qed.

Lemma batch_has_distinct_ids_witness :
  unique_ids [pendingE1; pendingE2] ∧
  NoDup (ids (returned (CallGetIndexJob "J1" 1 5 30) [pendingE1; pendingE2])).
Proof.
  assert (H : unique_ids [pendingE1; pendingE2]) by by_evaluation.
  split; [exact H|].
  exact (batch_has_distinct_ids "J1" 1 5 30 [pendingE1; pendingE2] H).
Defined.

Section ReleasedFacts.

Lemma released_not_eligible timestamp (d : Document) :
  eligible timestamp (released d) = false.
Proof.
  apply not_true_is_false. intros [[r Hr] _]%eligible_spec.
  rewrite lookup_released in Hr. case_decide as H; [done|].
  apply H, elem_of_lease_fields. tauto.
Qed.

Lemma released_id (d : Document) : released d !! "_id" = d !! "_id".
Proof.
  apply released_same_outside_lease. rewrite elem_of_lease_fields.
  intros [?|[?|?]]; discriminate.
Qed.

End ReleasedFacts.

(** X23.  Released work is not handed out again: after
    [setIndexJobFinished] for a job, no later [getIndexJob], at whatever
    time and under whatever token, returns an entry that carried that
    job's id when it was released. *)
Theorem released_entries_not_claimed_again jobId jobId' timestamp count
    timeout (c : Collection) (d e : Document) :
  unique_ids c →
  d ∈ c → tagged jobId d →
  e ∈ returned (CallGetIndexJob jobId' timestamp count timeout)
        (perform (CallSetIndexJobFinished jobId) c) →
  e !! "_id" ≠ d !! "_id".
Proof.
  intros Hu Hd Htag He Hid. cbn [returned] in He.
  rewrite getIndexJob_unfold in He. cbn [snd] in He.
  apply elem_of_loadManyByFilter in He as [He Hetag].
  apply matches_FEq in Hetag.
  apply list_elem_of_lookup in He as [n He].
  pose proof (after_claims_pointwise jobId' timestamp timeout count
                (perform (CallSetIndexJobFinished jobId) c)) as HF.
  destruct (Forall2_lookup_r _ _ _ _ _ HF He) as (x & Hx & Hxe).
  rewrite perform_release, list_lookup_fmap in Hx.
  destruct (c !! n) as [d0|] eqn:Hd0; [|done]. cbn in Hx.
  injection Hx as <-.
  assert (He_id : e !! "_id" = d0 !! "_id").
  { destruct Hxe as [->|[_ ->]]; rewrite ?claimed_other by done;
      case_decide; by rewrite ?released_id. }
  assert (d0 = d) as ->.
  { eapply unique_ids_inj; [exact Hu| |done|congruence].
    apply list_elem_of_lookup. by exists n. }
  rewrite decide_True in Hxe by done.
  destruct Hxe as [->|[Hel _]].
  - by apply (released_not_tagged jobId' d).
  - by rewrite released_not_eligible in Hel.
Qed.

Lemma released_entries_not_claimed_again_witness :
  unique_ids [leasedE1; pendingE2] ∧ leasedE1 ∈ [leasedE1; pendingE2] ∧
  tagged "J1" leasedE1 ∧
  claimed "J2" 50 30 pendingE2
  ∈ returned (CallGetIndexJob "J2" 50 5 30)
      (perform (CallSetIndexJobFinished "J1") [leasedE1; pendingE2]) ∧
  claimed "J2" 50 30 pendingE2 !! "_id" ≠ leasedE1 !! "_id".
Proof.
  assert (H1 : unique_ids [leasedE1; pendingE2]) by by_evaluation.
  assert (H2 : leasedE1 ∈ [leasedE1; pendingE2]) by by_evaluation.
  assert (H3 : tagged "J1" leasedE1) by by_evaluation.
  assert (H4 : claimed "J2" 50 30 pendingE2
               ∈ returned (CallGetIndexJob "J2" 50 5 30)
                   (perform (CallSetIndexJobFinished "J1") [leasedE1; pendingE2]))
    by by_evaluation.
  split; [exact H1|]. split; [exact H2|]. split; [exact H3|]. split; [exact H4|].
  exact (released_entries_not_claimed_again "J1" "J2" 50 5 30
           [leasedE1; pendingE2] leasedE1 _ H1 H2 H3 H4).
Defined.

(** C5 fails on the code for a sequence that holds a save the store
    rejects.  [E1] is saved at 0 with watermarks 0 and 0, then saved
    again at 8 by the worker that holds it, with watermarks -5 and 100
    and the lease fields still on the entry.  The second save throws
    (the conflict of C4) and merges nothing: the record keeps
    [firstSeen] 0 and [lastSeen] 0, while the least [firstSeen] supplied
    is -5 and the greatest [lastSeen] supplied is 100. *)
Theorem rejected_save_loses_watermarks :
  save 0 entryE1 [] = Ok [pendingE1] ∧
  save 8 lateE1 [pendingE1] = Err ConflictingUpdateOperators ∧
  (history [CallSave 0 entryE1; CallSave 8 lateE1] []).1 = [pendingE1] ∧
  stored "E1" (history [CallSave 0 entryE1; CallSave 8 lateE1] []).1
  = Some pendingE1 ∧
  pendingE1 !! "firstSeen" = Some (VNum 0) ∧
  pendingE1 !! "lastSeen" = Some (VNum 0) ∧
  is_minimum (-5) [firstSeen entryE1; firstSeen lateE1] ∧
  is_maximum 100 [lastSeen entryE1; lastSeen lateE1].
Proof.
  split_and!; try (vm_compute; reflexivity).
  - split; [by_evaluation|]. repeat constructor; cbn; lia.
  - split; [by_evaluation|]. repeat constructor; cbn; lia.
Qed.

(** * The bulk of a claim under any choice of document *)

Section AnyChoice.

Variables (jobId : string) (timestamp timeout : Z).

Local Abbreviation one := (claims_any jobId timestamp timeout).
Local Abbreviation bulk := (bulk_any jobId timestamp timeout).
Local Abbreviation lease := (claimed jobId timestamp timeout).
Local Abbreviation tags c := (length (read_back jobId c)).
Local Abbreviation open c := (length (List.filter (eligible timestamp) c)).
Local Abbreviation bulk_invariant := (Batch.bulk_invariant jobId timestamp timeout).

(** The update of the model is one of the admissible ones. *)
Lemma claim_step_claims_any (c : Collection) :
  one c (claim_step jobId timestamp timeout c).
Proof.
  destruct (claim_step_cases jobId timestamp timeout c)
    as [[Hnone ->]|(l1 & d & l2 & -> & Hd & _ & ->)];
    [by apply claims_nothing|by apply claims_one].
Qed.

Lemma after_claims_bulk_any k (c : Collection) :
  bulk k c (after_claims k jobId timestamp timeout c).
Proof.
  unfold after_claims. rewrite after_claims_iter. cbn [fst]. revert c.
  induction k as [|k IH]; intros c; [apply bulk_done|].
  rewrite Nat.iter_succ_r.
  eapply bulk_next; [apply claim_step_claims_any|apply IH].
Qed.

Lemma tags_split (l1 l2 : Collection) (x : Document) :
  tags (l1 ++ x :: l2)
  = (tags l1 + (if decide (tagged jobId x) then 1 else 0) + tags l2)%nat.
Proof.
  unfold read_back, loadManyByFilter.
  rewrite List.filter_app, length_app. cbn [List.filter].
  case_decide as H.
  - rewrite (proj2 (matches_FEq _ _ _) H). cbn [length]. lia.
  - destruct (matches _ x) eqn:Hm; [by apply matches_FEq in Hm|lia].
Qed.

Lemma open_split (l1 l2 : Collection) (x : Document) :
  open (l1 ++ x :: l2)
  = (open l1 + (if eligible timestamp x then 1 else 0) + open l2)%nat.
Proof.
  rewrite List.filter_app, length_app. cbn [List.filter].
  destruct (eligible timestamp x); cbn [length]; lia.
Qed.

Lemma open_none (c : Collection) :
  Forall (λ d, eligible timestamp d = false) c → open c = 0%nat.
Proof.
  induction 1 as [|d c Hd _ IH]; [done|]. cbn [List.filter]. by rewrite Hd.
Qed.

(** An update never takes the token off a document. *)
Lemma claims_any_tags_grow (c c1 : Collection) : one c c1 → (tags c ≤ tags c1)%nat.
Proof.
  intros [c0 _|l1 d l2 _]; [done|]. rewrite !tags_split.
  rewrite (decide_True (P := tagged jobId (lease d))) by apply claimed_tagged.
  case_decide; lia.
Qed.

Lemma bulk_any_tags_grow k (c c' : Collection) : bulk k c c' → (tags c ≤ tags c')%nat.
Proof.
  induction 1 as [c|k c c1 c2 Hstep _ IH]; [done|].
  etrans; [by apply claims_any_tags_grow|done].
Qed.

Lemma bulk_invariant_start (c0 : Collection) :
  job_unused jobId c0 → bulk_invariant c0 c0.
Proof.
  intros Hunused x Hx. unfold job_unused in Hunused.
  rewrite Forall_forall in Hunused. split; [|done].
  intros Ht. by destruct (Hunused x Hx).
Qed.

Lemma leased_by_call_not_eligible (d : Document) :
  0 < timeout → eligible timestamp (lease d) = false.
Proof.
  intros Hpos. eapply leased_not_eligible;
    [by rewrite claimed_tagged|apply claimed_timeout|lia].
Qed.

Lemma claims_any_invariant (c0 c c1 : Collection) :
  0 < timeout →
  bulk_invariant c0 c → one c c1 →
  bulk_invariant c0 c1 ∧
  ((open c = 0 ∧ c1 = c) ∨ (open c = S (open c1) ∧ tags c1 = S (tags c)))%nat.
Proof.
  intros Hpos Hinv Hstep. destruct Hstep as [c Hnone|l1 d l2 Hd].
  - split; [done|]. left. split; [by apply open_none|done].
  - assert (Hin : d ∈ l1 ++ d :: l2)
      by (rewrite elem_of_app, elem_of_cons; auto).
    assert (Hnot : ¬ tagged jobId d).
    { intros Ht. destruct (proj1 (Hinv d Hin) Ht) as (d' & _ & _ & ->).
      by rewrite leased_by_call_not_eligible in Hd. }
    split.
    + intros x Hx. rewrite elem_of_app, elem_of_cons in Hx.
      destruct Hx as [Hx|[->|Hx]].
      * apply Hinv. rewrite elem_of_app. auto.
      * split; [|by intros []; apply claimed_tagged].
        intros _. exists d. split; [by apply (Hinv d Hin)|done].
      * apply Hinv. rewrite elem_of_app, elem_of_cons. auto.
    + right. rewrite !open_split, !tags_split, Hd.
      rewrite leased_by_call_not_eligible by done.
      rewrite (decide_True (P := tagged jobId (lease d))) by apply claimed_tagged.
      rewrite decide_False by done. lia.
Qed.

Lemma bulk_any_counts k (c0 c c' : Collection) :
  0 < timeout →
  bulk_invariant c0 c → bulk k c c' →
  bulk_invariant c0 c' ∧ tags c' = (tags c + k `min` open c)%nat.
Proof.
  intros Hpos Hinv Hbulk. induction Hbulk as [c|k c c1 c2 Hstep Hrest IH].
  - split; [done|lia].
  - destruct (claims_any_invariant c0 c c1 Hpos Hinv Hstep)
      as [Hinv1 [[Hopen ->]|[Hopen Htags]]].
    + destruct (IH Hinv1) as [Hinv2 ->]. split; [done|]. lia.
    + destruct (IH Hinv1) as [Hinv2 ->]. split; [done|]. lia.
Qed.

End AnyChoice.

(** X12.  With a positive lease, a fresh token and at least one update
    asked for, whichever matching document each [updateOne] of the bulk
    writes, the documents that carry the token afterwards are leases
    written on documents that were eligible when the call began, and
    there are exactly as many of them as [count], or as there were
    eligible documents when those are fewer; [getIndexJob] returns such
    a batch. *)
Theorem positive_lease_batch jobId timestamp count timeout (c : Collection) :
  0 < timeout →
  (0 < count)%nat →
  job_unused jobId c →
  (∀ c', bulk_any jobId timestamp timeout count c c' →
     length (read_back jobId c')
     = (count `min` length (List.filter (eligible timestamp) c))%nat ∧
     ∀ e : Document, e ∈ read_back jobId c' →
       ∃ d : Document, d ∈ c ∧ eligible timestamp d = true ∧
         e = claimed jobId timestamp timeout d) ∧
  bulk_any jobId timestamp timeout count c
    (getIndexJob jobId timestamp count timeout c).1 ∧
  (getIndexJob jobId timestamp count timeout c).2
  = Ok (jobId, read_back jobId (getIndexJob jobId timestamp count timeout c).1) ∧
  length (returned (CallGetIndexJob jobId timestamp count timeout) c)
  = (count `min` length (List.filter (eligible timestamp) c))%nat.
Proof.
  intros Hpos _ Hunused.
  assert (Hany : ∀ c', bulk_any jobId timestamp timeout count c c' →
            length (read_back jobId c')
            = (count `min` length (List.filter (eligible timestamp) c))%nat ∧
            ∀ e : Document, e ∈ read_back jobId c' →
              ∃ d : Document, d ∈ c ∧ eligible timestamp d = true ∧
                e = claimed jobId timestamp timeout d).
  { intros c' Hbulk.
    destruct (bulk_any_counts jobId timestamp timeout count c c c' Hpos
                (bulk_invariant_start jobId timestamp timeout c Hunused) Hbulk)
      as [Hinv Hlen].
    split.
    - rewrite Hlen. unfold read_back.
      by rewrite (proj1 (job_unused_load jobId c) Hunused).
    - intros e [He Ht]%elem_of_loadManyByFilter. apply matches_FEq in Ht.
      by apply (Hinv e He). }
  pose proof (after_claims_bulk_any jobId timestamp timeout count c) as Hrun.
  split; [exact Hany|]. cbn [returned].
  rewrite getIndexJob_unfold. cbn [fst snd].
  split; [exact Hrun|]. split; [done|]. apply (Hany _ Hrun).
Qed.

Lemma positive_lease_batch_witness :
  0 < 30 ∧ (0 < 1)%nat ∧ job_unused "J9" [leasedE1; pendingE2; pendingE1] ∧
  length (returned (CallGetIndexJob "J9" 40 1 30) [leasedE1; pendingE2; pendingE1])
  = 1%nat.
Proof.
  assert (H : job_unused "J9" [leasedE1; pendingE2; pendingE1]) by by_evaluation.
  split; [lia|]. split; [lia|]. split; [exact H|].
  destruct (positive_lease_batch "J9" 40 1 30 [leasedE1; pendingE2; pendingE1]
              ltac:(lia) ltac:(lia) H) as (_ & _ & _ & Hlen).
  rewrite Hlen. reflexivity.
Defined.

(** X13.  A claim of at least one entry on a collection in which no
    document is eligible writes nothing, whatever the store does, and
    [getIndexJob] returns, without error, the empty batch (the token
    being fresh). *)
Theorem getIndexJob_nothing_eligible jobId timestamp count timeout
    (c : Collection) :
  (0 < count)%nat →
  Forall (λ d, eligible timestamp d = false) c →
  job_unused jobId c →
  (∀ c', bulk_any jobId timestamp timeout count c c' → c' = c) ∧
  getIndexJob jobId timestamp count timeout c = (c, Ok (jobId, [])).
Proof.
  intros _ Hnone Hunused.
  assert (Hany : ∀ k c', bulk_any jobId timestamp timeout k c c' → c' = c).
  { intros k c' Hbulk.
    induction Hbulk as [c|k c c1 c2 Hstep _ IH]; [done|].
    destruct Hstep as [c _|l1 d l2 Hd]; [by apply IH|].
    apply Forall_app in Hnone as [_ Hnone].
    apply Forall_cons in Hnone as [Hnone _]. congruence. }
  split; [apply Hany|].
  rewrite getIndexJob_unfold.
  rewrite (Hany _ _ (after_claims_bulk_any jobId timestamp timeout count c)).
  by rewrite (proj1 (job_unused_load jobId c) Hunused).
Qed.

Lemma getIndexJob_nothing_eligible_witness :
  (0 < 5)%nat ∧ Forall (λ d, eligible 2 d = false) [leasedE1] ∧
  job_unused "J2" [leasedE1] ∧
  getIndexJob "J2" 2 5 30 [leasedE1] = ([leasedE1], Ok ("J2"%string, [])).
Proof.
  assert (H1 : Forall (λ d, eligible 2 d = false) [leasedE1])
    by (repeat constructor).
  assert (H2 : job_unused "J2" [leasedE1]) by by_evaluation.
  split; [lia|]. split; [exact H1|]. split; [exact H2|].
  exact (proj2 (getIndexJob_nothing_eligible "J2" 2 5 30 [leasedE1]
                  ltac:(lia) H1 H2)).
Defined.

(** X14.  With a lease duration that is zero or negative, [count] does
    not settle the size of the batch.  A claimed document matches the
    filter again, so the store may write every update of the bulk on
    the same document: there is a run of the bulk, for any number of
    updates, after which one document carries the token.  And whatever
    the store picks, when something is eligible at least one document
    carries the token after the bulk. *)
Theorem nonpositive_lease_batch jobId timestamp count timeout (c : Collection) :
  timeout ≤ 0 →
  job_unused jobId c →
  Exists (λ d, eligible timestamp d = true) c →
  (∀ c', bulk_any jobId timestamp timeout (S count) c c' →
     (1 ≤ length (read_back jobId c'))%nat) ∧
  ∃ c', bulk_any jobId timestamp timeout (S count) c c' ∧
    length (read_back jobId c') = 1%nat.
Proof.
  intros Hto Hunused Hsome.
  assert (Hany : ∀ c', bulk_any jobId timestamp timeout (S count) c c' →
            (1 ≤ length (read_back jobId c'))%nat).
  { intros c' Hbulk. inversion Hbulk as [|k c0 c1 c2 Hstep Hrest]; subst.
    etrans; [|by eapply bulk_any_tags_grow].
    destruct Hstep as [c Hnone|l1 d l2 Hd].
    - apply Exists_exists in Hsome as (d & Hd & Hel).
      rewrite Forall_forall in Hnone. rewrite (Hnone d Hd) in Hel. done.
    - rewrite tags_split.
      rewrite (decide_True (P := tagged jobId (claimed jobId timestamp timeout d)))
        by apply claimed_tagged. lia. }
  split; [exact Hany|].
  exists (after_claims (S count) jobId timestamp timeout c).
  pose proof (after_claims_bulk_any jobId timestamp timeout (S count) c) as Hrun.
  split; [exact Hrun|].
  pose proof (Hany _ Hrun) as Hlow.
  rewrite after_claims_reclaims in * by done.
  pose proof (claim_step_tags_one jobId timestamp timeout c) as Hup.
  rewrite (proj1 (job_unused_load jobId c) Hunused) in Hup.
  unfold read_back in *. cbn [length] in Hup. lia.
Qed.

Lemma nonpositive_lease_batch_witness :
  0 ≤ 0 ∧ job_unused "J1" [pendingE1; pendingE2] ∧
  Exists (λ d, eligible 1 d = true) [pendingE1; pendingE2] ∧
  ∃ c', bulk_any "J1" 1 0 (S 4) [pendingE1; pendingE2] c' ∧
    length (read_back "J1" c') = 1%nat.
Proof.
  assert (H1 : job_unused "J1" [pendingE1; pendingE2]) by by_evaluation.
  assert (H2 : Exists (λ d, eligible 1 d = true) [pendingE1; pendingE2])
    by (by left).
  split; [lia|]. split; [exact H1|]. split; [exact H2|].
  exact (proj2 (nonpositive_lease_batch "J1" 1 4 0 [pendingE1; pendingE2]
                  ltac:(lia) H1 H2)).
Defined.

(** X15.  A claim followed by the release of its job, on a collection
    with unique ids and under a fresh token: the release succeeds and
    no document carries the job id afterwards.  Document by document,
    either the document is exactly as it was before the claim, and then
    no returned entry has its id; or it was eligible, its lease is among
    the entries the claim returned, and it is stored stripped of
    [indexRequiredSince], [indexJob] and [indexJobTimeout]. *)
Theorem claim_then_release_exact jobId timestamp count timeout (c : Collection) :
  (0 < count)%nat →
  unique_ids c →
  job_unused jobId c →
  ∃ c', setIndexJobFinished jobId (getIndexJob jobId timestamp count timeout c).1
        = Ok c' ∧
    job_unused jobId c' ∧
    Forall2 (λ d d',
        (d' = d ∧
         ∀ e : Document,
           e ∈ returned (CallGetIndexJob jobId timestamp count timeout) c →
           e !! "_id" ≠ d !! "_id") ∨
        (eligible timestamp d = true ∧
         claimed jobId timestamp timeout d
         ∈ returned (CallGetIndexJob jobId timestamp count timeout) c ∧
         d' = released d)) c c'.
Proof.
  intros _ Hu Hunused.
  pose proof (perform_release jobId
                (after_claims count jobId timestamp timeout c)) as Hrel.
  cbn [perform] in Hrel.
  cbn [returned]. rewrite !getIndexJob_unfold. cbn [fst snd].
  destruct (setIndexJobFinished jobId _) as [c'|] eqn:Hs;
    [|by rewrite setIndexJobFinished_unfold in Hs].
  subst c'. clear Hs. eexists. split; [done|]. split.
  - apply Forall_forall. intros x [d [-> _]]%list_elem_of_fmap.
    case_decide; [apply released_not_tagged|done].
  - pose proof (after_claims_pointwise jobId timestamp timeout count c) as HF.
    assert (Hu1 : unique_ids (after_claims count jobId timestamp timeout c)).
    { unfold unique_ids. by rewrite after_claims_ids. }
    apply Forall2_same_length_lookup in HF as [Hlen HF].
    apply Forall2_same_length_lookup. split; [by rewrite length_map|].
    intros n d d' Hd Hd'. rewrite list_lookup_fmap in Hd'.
    destruct (after_claims count jobId timestamp timeout c !! n)
      as [d1|] eqn:Hd1; [|done].
    cbn in Hd'. injection Hd' as <-.
    assert (Hin1 : d1 ∈ after_claims count jobId timestamp timeout c)
      by (apply list_elem_of_lookup; by exists n).
    destruct (HF n d d1 Hd Hd1) as [->|[Hel ->]].
    + left. unfold job_unused in Hunused. rewrite Forall_forall in Hunused.
      assert (Hnot : ¬ tagged jobId d).
      { apply Hunused. apply list_elem_of_lookup. by exists n. }
      rewrite decide_False by done. split; [done|].
      intros e [He Ht]%elem_of_loadManyByFilter Hid.
      apply matches_FEq in Ht.
      assert (e = d) as -> by (by eapply unique_ids_inj).
      done.
    + right. rewrite decide_True by apply claimed_tagged.
      split; [done|]. split; [|apply released_claimed].
      apply elem_of_loadManyByFilter. split; [done|].
      apply matches_FEq, claimed_tagged.
Qed.

Lemma claim_then_release_exact_witness :
  (0 < 1)%nat ∧ unique_ids [pendingE1; pendingE2] ∧
  job_unused "J1" [pendingE1; pendingE2] ∧
  setIndexJobFinished "J1" (getIndexJob "J1" 1 1 30 [pendingE1; pendingE2]).1
  = Ok [released pendingE1; pendingE2].
Proof.
  assert (H1 : unique_ids [pendingE1; pendingE2]) by by_evaluation.
  assert (H2 : job_unused "J1" [pendingE1; pendingE2]) by by_evaluation.
  split; [lia|]. split; [exact H1|]. split; [exact H2|].
  destruct (claim_then_release_exact "J1" 1 1 30 [pendingE1; pendingE2]
              ltac:(lia) H1 H2) as (c' & Hs & _ & _).
  rewrite Hs. f_equal. vm_compute in Hs. by injection Hs as <-.
Defined.

Section RoundTrip.

Lemma stored_elem i (c : Collection) (d : Document) :
  stored i c = Some d → d ∈ c ∧ d !! "_id" = Some (VStr i).
Proof.
  intros (l1 & l2 & -> & Hid & _)%stored_Some_split. split; [|done].
  rewrite elem_of_app, elem_of_cons. auto.
Qed.

Lemma stored_unique i (c : Collection) (d : Document) :
  unique_ids c → d ∈ c → d !! "_id" = Some (VStr i) → stored i c = Some d.
Proof.
  intros Hu Hd Hid. destruct (stored i c) as [d'|] eqn:Hst.
  - apply stored_elem in Hst as [Hd' Hid']. f_equal.
    eapply unique_ids_inj; [done..|congruence].
  - apply stored_None in Hst. rewrite Forall_forall in Hst.
    by destruct (Hst d Hd).
Qed.

Lemma NoDup_list_filter {A} (f : A → bool) (l : list A) :
  NoDup l → NoDup (List.filter f l).
Proof.
  induction 1 as [|x l Hx _ IH]; [constructor|]. cbn [List.filter].
  destruct (f x); [|done]. constructor; [|done].
  intros Hin. apply Hx. apply list_elem_of_In in Hin.
  apply filter_In in Hin as [Hin _]. by apply list_elem_of_In.
Qed.

Lemma first_saved_id p : first_saved p !! "_id" = Some (VStr (id p.2)).
Proof.
  unfold first_saved. rewrite lookup_insert_ne by done.
  apply toMongoDocument_id.
Qed.

End RoundTrip.

(** X20.  [saveMany] then [loadMany].  Take a non-empty bulk of entries
    the store accepts, with pairwise distinct ids none of which has a
    record, on a collection with unique ids.  [loadMany] of those ids
    then returns, in some order, exactly the saved entries as documents,
    each with [indexRequiredSince] set to the time of its save. *)
Theorem loadMany_after_saveMany (entries : list (Z * Entry)) (c : Collection) :
  entries ≠ [] →
  NoDup (map (λ p : Z * Entry, id p.2) entries) →
  Forall (λ p : Z * Entry, carries_no_lease p.2) entries →
  Forall (λ p : Z * Entry, stored (id p.2) c = None) entries →
  unique_ids c →
  loadMany (map (λ p : Z * Entry, id p.2) entries) (saveMany entries c).1
  ≡ₚ map first_saved entries.
Proof.
  intros _ Hnd Hfree Hnew Hu.
  assert (Hu' : unique_ids (saveMany entries c).1)
    by apply (perform_unique_ids (CallSaveMany entries) c Hu).
  assert (Hst : ∀ p, p ∈ entries →
            stored (id p.2) (saveMany entries c).1 = Some (first_saved p)).
  { intros [now entry] Hp. cbn [snd].
    rewrite Forall_forall in Hfree, Hnew.
    pose proof (Hfree _ Hp) as Hf. pose proof (Hnew _ Hp) as Hn.
    cbn [snd] in Hf, Hn.
    rewrite (saveMany_stored_entry entries c now entry) by done.
    rewrite decide_True by done. rewrite Hn. unfold merged.
    cbn [from_option Datatypes.id]. by rewrite saved_seed. }
  apply NoDup_Permutation.
  - unfold loadMany. apply NoDup_list_filter.
    by apply (NoDup_fmap_1 (λ d : Document, d !! "_id")).
  - apply (NoDup_fmap_1 (λ d : Document, d !! "_id")).
    rewrite <- list_fmap_compose.
    erewrite list_fmap_ext;
      [|intros n p _; cbn; apply first_saved_id].
    change (NoDup ((λ p : Z * Entry, Some (VStr (id p.2))) <$> entries)).
    assert (Hinj : (λ p : Z * Entry, Some (VStr (id p.2)))
                   = (λ i, Some (VStr i)) ∘ (λ p : Z * Entry, id p.2)) by done.
    rewrite Hinj, list_fmap_compose.
    apply NoDup_fmap_2; [|done]. by intros i j [= ->].
  - intros e. rewrite elem_of_loadMany. split.
    + intros (He & i & Hi & Hid).
      apply list_elem_of_fmap in Hi as (p & -> & Hp).
      apply list_elem_of_fmap. exists p. split; [|done].
      pose proof (stored_unique _ _ _ Hu' He Hid) as Hse.
      rewrite (Hst p Hp) in Hse. by injection Hse.
    + intros (p & -> & Hp)%list_elem_of_fmap.
      destruct (stored_elem _ _ _ (Hst p Hp)) as [Hin Hid].
      split; [done|]. exists (id p.2). split; [|done].
      apply list_elem_of_fmap. by exists p.
Qed.

Lemma loadMany_after_saveMany_witness :
  let entries := [(3, entryE2); (4, entryE1_again)] in
  entries ≠ [] ∧
  NoDup (map (λ p : Z * Entry, id p.2) entries) ∧
  Forall (λ p : Z * Entry, carries_no_lease p.2) entries ∧
  Forall (λ p : Z * Entry, stored (id p.2) [] = None) entries ∧
  unique_ids [] ∧
  loadMany ["E2"; "E1"]%string (saveMany entries []).1
  ≡ₚ [first_saved (3, entryE2); first_saved (4, entryE1_again)].
Proof.
  intros entries.
  assert (H0 : entries ≠ []) by discriminate.
  assert (H1 : NoDup (map (λ p : Z * Entry, id p.2) entries)) by by_evaluation.
  assert (H2 : Forall (λ p : Z * Entry, carries_no_lease p.2) entries)
    by (repeat constructor).
  assert (H3 : Forall (λ p : Z * Entry, stored (id p.2) [] = None) entries)
    by (repeat constructor).
  assert (H4 : unique_ids []) by apply NoDup_nil_2.
  split; [exact H0|]. split; [exact H1|]. split; [exact H2|].
  split; [exact H3|]. split; [exact H4|].
  exact (loadMany_after_saveMany entries [] H0 H1 H2 H3 H4).
Defined.
